(** * Signal-driven position lifecycle: a shallow embedding

    The development follows the three programs of the repository and the
    indicator library that one of them calls:

    - [Gainers]   : the day-gainers monitor (grokyhoo.py), a persisted
                    set of known tickers and the per-cycle delta;
    - [Indicators]: the indicator library used by the portfolio manager
                    (an npm dependency, not part of the repository);
    - [Portfolio] : the portfolio manager (grok-yahoo2.py), entry signal,
                    loss-cut exits and the buy loop;
    - [ZeroDTE]   : the option scanner (odte.py), risk/reward scoring and
                    stop-loss / take-profit monitoring.

    Prices and indicator values are floating-point numbers in the
    programs.  A finite double is a rational, so they are embedded in
    [Q]; the arithmetic of the programs rounds every result to a double
    ([Double]), the indicator library is modelled on exact rationals.
    Network calls are oracles passed as arguments. *)

From Stdlib Require Import QArith Qabs Qpower Lqa Lia List String Ascii.
From stdpp Require Import gmap strings list fin_maps sets.

#[local] Set Warnings "-clear-no-such-hyp".

Open Scope Q_scope.

(** Strict comparison on rationals, as a boolean. *)
Definition Qlt_bool (x y : Q) : bool := negb (Qle_bool y x).

(* ===================================================================== *)
(** ** Double-precision arithmetic                                        *)
(* ===================================================================== *)

(** JavaScript numbers and Python floats are IEEE 754 binary64 values.  A
    finite double is a rational, so values stay in [Q]; what differs from
    rational arithmetic is that every operation rounds its exact result
    to the nearest double, ties to the even significand.  Exponents are
    not bounded here: overflow to infinity and gradual underflow, which
    the prices and ratios of the programs are far from, are left out. *)
Module Double.

(** The integer nearest to a non-negative rational, ties to even. *)
Definition rint (q : Q) : Z :=
  let n := Qnum q in
  let d := Zpos (Qden q) in
  let f := (n / d)%Z in
  let r := (n mod d)%Z in
  match (2 * r ?= d)%Z with
  | Lt => f
  | Gt => (f + 1)%Z
  | Eq => if Z.even f then f else (f + 1)%Z
  end.

Definition pow2 (s : Z) : Q :=
  if (0 <=? s)%Z then inject_Z (2 ^ s) else 1 # Z.to_pos (2 ^ (- s)).

(** The exponent [s] of the last place of a positive rational [a]:
    [2^52 <= a / 2^s < 2^53]. *)
Definition exponent (a : Q) : Z :=
  let e0 := (Z.log2 (Qnum a) - Z.log2 (Zpos (Qden a)))%Z in
  let e := if Qle_bool (pow2 e0) a then e0 else (e0 - 1)%Z in
  (e - 52)%Z.

(** Rounding to the nearest double: a significand of 53 bits. *)
Definition round (q : Q) : Q :=
  if Qeq_bool q 0 then 0
  else
    let a := Qabs q in
    let s := exponent a in
    let r := Qred (inject_Z (rint (a / pow2 s)) * pow2 s) in
    if Qle_bool 0 q then r else - r.

Definition add (x y : Q) : Q := round (x + y).
Definition sub (x y : Q) : Q := round (x - y).
Definition mul (x y : Q) : Q := round (x * y).
Definition div (x y : Q) : Q := round (x / y).

(** The double that a decimal literal of the source denotes. *)
Definition literal (q : Q) : Q := round q.

(** The relative error of one rounding is at most [2^-53]; a few
    roundings in a row stay within [2^-50]. *)
Definition unit_roundoff : Q := 1 # 9007199254740992.
Definition rounding_margin : Q := 1 # 1125899906842624.

End Double.

(* ===================================================================== *)
(** ** Day-gainers monitor (grokyhoo.py)                                  *)
(* ===================================================================== *)

Module Gainers.

(** What the HTTP request and the JSON walk of [fetch_tickers] hand to the
    loop over quotes: either the request or the parse raised (every
    [except] branch returns [set()]), or the list of the values
    [quote.get('symbol', '')], one per quote. *)
Inductive response :=
| FetchError
| Quotes (symbols : list string).

(** [symbol.split('.')[0]]: the text before the first dot. *)
Fixpoint split_head (s : string) : string :=
  match s with
  | EmptyString => EmptyString
  | String c r => if Ascii.eqb c "."%char then EmptyString
                  else String c (split_head r)
  end.

(** [s.replace(c, '')] for a one-character pattern. *)
Fixpoint remove_char (c : ascii) (s : string) : string :=
  match s with
  | EmptyString => EmptyString
  | String d r => if Ascii.eqb d c then remove_char c r
                  else String d (remove_char c r)
  end.

Fixpoint string_forallb (p : ascii -> bool) (s : string) : bool :=
  match s with
  | EmptyString => true
  | String c r => p c && string_forallb p r
  end.

Fixpoint string_mem (c : ascii) (s : string) : bool :=
  match s with
  | EmptyString => false
  | String d r => Ascii.eqb d c || string_mem c r
  end.

Section Fetch.

(** The character table behind [str.isalnum] (Unicode's in Python). *)
Variable isalnum_char : ascii -> bool.

(** [str.isalnum()]: every character alphanumeric and at least one
    character. *)
Definition isalnum (s : string) : bool :=
  match s with
  | EmptyString => false
  | _ => string_forallb isalnum_char s
  end.

(** The guard of line 84:
    [symbol and len(symbol) <= 6 and
     symbol.replace('-', '').replace('.', '').isalnum()]. *)
Definition accepted (symbol : string) : bool :=
  negb (String.eqb symbol EmptyString)
  && (String.length symbol <=? 6)%nat
  && isalnum (remove_char "."%char (remove_char "-"%char symbol)).

(** One iteration of [for quote in quotes]. *)
Definition add_quote (tickers : gset string) (raw : string) : gset string :=
  let symbol := split_head raw in
  if accepted symbol then tickers ∪ {[ symbol ]} else tickers.

Definition fetch_tickers (r : response) : gset string :=
  match r with
  | FetchError => ∅
  | Quotes qs => fold_left add_quote qs ∅
  end.

End Fetch.

(** The agent: the in-memory set and the content of [ticker_state.json]:
    the tickers it lists, or [None] when the file does not exist or does
    not parse (an empty or partial file). *)
Record agent := {
  known_tickers : gset string;
  state_file : option (gset string)
}.

(** [load_state]: replaces the in-memory set when the file exists and
    parses; a missing file is skipped and a parse error is caught and
    printed, both leaving the set as it is. *)
Definition load_state (a : agent) : agent :=
  match state_file a with
  | Some ts => {| known_tickers := ts; state_file := state_file a |}
  | None => a
  end.

(** What becomes of [save_state]: the file is written; or [open] raises
    and the file is as before; or the write raises after [open(..., 'w')]
    has truncated the file, which is then empty or partial. *)
Inductive save_outcome := saved | open_failed | write_failed.

(** [save_state].  Every exception is caught and printed, and nothing is
    reported to the caller. *)
Definition save_state (disk : save_outcome) (a : agent) : agent :=
  match disk with
  | saved => {| known_tickers := known_tickers a;
                state_file := Some (known_tickers a) |}
  | open_failed => a
  | write_failed => {| known_tickers := known_tickers a; state_file := None |}
  end.

(** [new_tickers = current_tickers - self.known_tickers]. *)
Definition new_tickers (a : agent) (current_tickers : gset string) : gset string :=
  current_tickers ∖ known_tickers a.

(** [check_for_new_tickers] after the fetch.  The second component is
    the announcement of the cycle, if any: the set of tickers read out. *)
Definition check_for_new_tickers
    (a : agent) (current_tickers : gset string) (disk : save_outcome)
  : agent * option (gset string) :=
  if decide (current_tickers = ∅) then (a, None)
  else
    let new := new_tickers a current_tickers in
    if decide (new = ∅) then (a, None)
    else
      let a' := {| known_tickers := known_tickers a ∪ new;
                   state_file := state_file a |} in
      (save_state disk a', Some new).

(** A sequence of polling cycles; each cycle comes with the set fetched
    and what becomes of its save.  Announcements are collected in order. *)
Fixpoint monitor_loop
    (a : agent) (cycles : list (gset string * save_outcome))
  : agent * list (gset string) :=
  match cycles with
  | [] => (a, [])
  | (cur, disk) :: rest =>
      let '(a1, ann) := check_for_new_tickers a cur disk in
      let '(a2, anns) := monitor_loop a1 rest in
      (a2, match ann with Some s => s :: anns | None => anns end)
  end.

(** A fresh agent on a machine without a state file. *)
Definition fresh : agent := {| known_tickers := ∅; state_file := None |}.

(** What a stored ticker is expected to satisfy: no exchange suffix is
    left (no dot), the symbol is not empty, has at most six characters
    and is alphanumeric once dashes and dots are taken out. *)
Definition well_formed (isalnum_char : ascii -> bool) (s : string) : Prop :=
  string_mem "."%char s = false
  ∧ s ≠ EmptyString
  ∧ (String.length s ≤ 6)%nat
  ∧ isalnum isalnum_char (remove_char "."%char (remove_char "-"%char s)) = true.

(** ASCII letters and digits, the table used in the examples. *)
Definition ascii_alnum (c : ascii) : bool :=
  let n := nat_of_ascii c in
  ((48 <=? n) && (n <=? 57) || (65 <=? n) && (n <=? 90)
   || (97 <=? n) && (n <=? 122))%nat.

(** A scan cycle from the raw response: fetch, then check. *)
Definition scan_cycles (tbl : ascii -> bool) (a : agent)
    (cycles : list (response * save_outcome)) : agent * list (gset string) :=
  monitor_loop a (map (λ c, (fetch_tickers tbl (fst c), snd c)) cycles).

(** A run on concrete data: the agent knows MSFT and has saved it; the
    feed then lists MSFT and AAPL and the save fails. *)
Definition msft_known : agent :=
  {| known_tickers := {[ "MSFT"%string ]};
     state_file := Some {[ "MSFT"%string ]} |}.

Definition msft_aapl : gset string := {[ "MSFT"%string; "AAPL"%string ]}.

(** A feed with an exchange suffix, a dash, an over-long name, an empty
    name and a name that is not alphanumeric. *)
Definition sample_feed : list (response * save_outcome) :=
  [ (Quotes [ "SHOP.TO"%string; "BRK-B"%string; "TOOLONG"%string;
              EmptyString; "A$"%string ], saved) ].

(** [__init__]: the in-memory set starts empty and [load_state] runs
    on whatever state file the machine has. *)
Definition init (file : option (gset string)) : agent :=
  load_state {| known_tickers := ∅; state_file := file |}.

End Gainers.

(* ===================================================================== *)
(** ** The indicator library                                              *)
(* ===================================================================== *)

Module Indicators.

(** The portfolio manager imports [RSI] and [BollingerBands] from the npm
    package [technicalindicators]; its sources are not in the repository.
    The definitions of this module are written from section 4.1 of the
    specification. *)

Inductive failure := InsufficientHistory.

Inductive result (A : Type) :=
| Ok (a : A)
| Fail (e : failure).
Arguments Ok {A} a.
Arguments Fail {A} e.

Definition Qsum (l : list Q) : Q := fold_right Qplus 0 l.

(** Upward and downward part of a price change. *)
Definition gain (d : Q) : Q := if Qle_bool 0 d then d else 0.
Definition loss (d : Q) : Q := if Qle_bool 0 d then 0 else - d.

(** Close-to-close changes of a series. *)
Fixpoint changes (closes : list Q) : list Q :=
  match closes with
  | a :: (b :: _) as rest => (b - a) :: changes rest
  | _ => []
  end.

(** Modelled from the spec: the RSI formula of section 4.1,
    [RSI = 100 - 100/(1+RS)] with [RS = avgGain/avgLoss], and [100] when
    the average loss is zero. *)
Definition rsi_value (avgGain avgLoss : Q) : Q :=
  if Qeq_bool avgLoss 0 then 100
  else 100 - 100 / (1 + avgGain / avgLoss).

(** Modelled from the spec: Wilder's smoothing, one step per further
    change: the new average is [(old * (n-1) + current) / n]. *)
Fixpoint wilder (n avgGain avgLoss : Q) (ds : list Q) : list Q :=
  match ds with
  | [] => []
  | d :: rest =>
      let g := (avgGain * (n - 1) + gain d) / n in
      let l := (avgLoss * (n - 1) + loss d) / n in
      rsi_value g l :: wilder n g l rest
  end.

(** Modelled from the spec: the trailing RSI series.  The averages are
    seeded on the first [period] changes (fewer when the series is
    exactly [period] closes long), divided by the period, then smoothed
    over the later changes. *)
Definition rsi_series (period : nat) (closes : list Q) : list Q :=
  let n := inject_Z (Z.of_nat period) in
  let ds := changes closes in
  let seed := firstn period ds in
  let g := Qsum (map gain seed) / n in
  let l := Qsum (map loss seed) / n in
  rsi_value g l :: wilder n g l (skipn period ds).

(** Modelled from the spec: the IndicatorEngine entry point for the RSI,
    which fails with [InsufficientHistory] on fewer than [period]
    closes. *)
Definition RSI (period : nat) (closes : list Q) : result (list Q) :=
  if (length closes <? period)%nat then Fail InsufficientHistory
  else Ok (rsi_series period closes).

(** Output of the Bollinger computation for one window. *)
Record bands := { upper : Q; middle : Q; lower : Q }.

Definition mean (w : list Q) : Q :=
  Qsum w / inject_Z (Z.of_nat (length w)).

Definition variance (w : list Q) : Q :=
  let m := mean w in
  Qsum (map (fun x => (x - m) * (x - m)) w) / inject_Z (Z.of_nat (length w)).

(** Square root to six decimals, exact on squares of such numbers; it
    stands for the floating-point square root. *)
Definition Qsqrt (q : Q) : Q :=
  Z.sqrt (Qnum q * Zpos (Qden q) * 10 ^ 12) # (Qden q * 10 ^ 6).

(** Modelled from the spec: Bollinger bands of one window,
    [middle ± stdDev × populationStandardDeviation]. *)
Definition bands_of (stdDev : Q) (w : list Q) : bands :=
  let m := mean w in
  let s := Qsqrt (variance w) in
  {| upper := m + stdDev * s; middle := m; lower := m - stdDev * s |}.

(** All contiguous windows of [period] values, oldest first. *)
Fixpoint windows (period : nat) (values : list Q) : list (list Q) :=
  match values with
  | [] => []
  | _ :: rest =>
      if (period <=? length values)%nat
      then firstn period values :: windows period rest
      else []
  end.

Definition bollinger_series (period : nat) (stdDev : Q) (values : list Q)
  : list bands :=
  map (bands_of stdDev) (windows period values).

(** The two library calls as the portfolio manager makes them: an array
    comes back, empty when the input is too short. *)
Definition rsi_calculate (period : nat) (values : list Q) : list Q :=
  match RSI period values with
  | Ok s => s
  | Fail _ => []
  end.

(** Fifteen closes, each one above the one before. *)
Definition rising : list Q :=
  map inject_Z [100; 101; 103; 104; 106; 107; 109; 110; 112; 113; 115; 116;
                118; 119; 121]%Z.

(** Sixteen closes with gains and losses. *)
Definition choppy : list Q :=
  map inject_Z [100; 102; 101; 105; 103; 104; 100; 99; 101; 98; 97; 99; 96;
                95; 97; 94]%Z.

End Indicators.

(* ===================================================================== *)
(** ** Portfolio manager (grok-yahoo2.py)                                 *)
(* ===================================================================== *)

Module Portfolio.

Definition BUY_AMOUNT : Q := 2000.
Definition LOSS_THRESHOLD : Q := 200.

(** One bar of [getHistorical], after the filter on null closes. *)
Record PriceBar := {
  date : Z; open : Q; high : Q; low : Q; close : Q; volume : Q
}.

(** An entry of the [portfolio] array. *)
Record Position := {
  symbol : string; buyPrice : Q; shares : Q; buyValue : Q; buyTime : Z
}.

(** An [async] function either resolves with a value or rejects because
    an exception was thrown. *)
Inductive outcome (A : Type) :=
| Returns (a : A)
| Throws.
Arguments Returns {A} a.
Arguments Throws {A}.

(** JavaScript values that are a number or [undefined]/[null]. *)
Definition truthy (v : option Q) : bool :=
  match v with
  | Some x => negb (Qeq_bool x 0)
  | None => false
  end.

(** [a < b] and [a >= b] where a side may be [undefined]: the comparison
    is then false. *)
Definition js_lt (a b : option Q) : bool :=
  match a, b with
  | Some x, Some y => Qlt_bool x y
  | _, _ => false
  end.

Definition js_ge (a b : option Q) : bool :=
  match a, b with
  | Some x, Some y => Qle_bool y x
  | _, _ => false
  end.

(** [arr[i]] for an integer index: [undefined] outside the array. *)
Definition js_index {A : Type} (arr : list A) (i : Z) : option A :=
  if (i <? 0)%Z then None else nth_error arr (Z.to_nat i).

(** [arr.slice(-n)]: the last [n] elements. *)
Definition slice_last {A : Type} (n : nat) (arr : list A) : list A :=
  skipn (length arr - n) arr.

Section Scan.

(** The two entry points of the indicator library:
    [RSI.calculate({values, period})] and
    [BollingerBands.calculate({period, stdDev, values})]. *)
Variable RSI_calculate : nat -> list Q -> list Q.
Variable BollingerBands_calculate : nat -> Q -> list Q -> list Indicators.bands.

(** The remote services of one scan. *)
Variable getHistorical : string -> list PriceBar.
Variable getQuote : string -> option Q.
Variable getTrending : list string.
Variable sp500 : gset string.
Variable now : Z.

(** The two conjuncts of the buy condition (lines 110-111), on the
    values read from the indicator arrays. *)
Definition rsiDropped (lastRsi prevRsi : option Q) : bool :=
  js_lt lastRsi (Some 30) && js_ge prevRsi (Some 30).

Definition bbOutLower (lastClose : option Q) (lastBb : Indicators.bands) : bool :=
  js_lt lastClose (Some (Indicators.lower lastBb)).

(** The constants that [checkBuyCondition] binds, as functions of the
    history: [closes] (line 95), [lastBb] and [lastClose] (lines 100-101),
    [lastRsi] and [prevRsi] (lines 106-107). *)
Definition closes (history : list PriceBar) : list Q :=
  slice_last 50 (map close history).

Definition lastBb (history : list PriceBar) : option Indicators.bands :=
  let bb := BollingerBands_calculate 20 2 (closes history) in
  js_index bb (Z.of_nat (length bb) - 1).

Definition lastClose (history : list PriceBar) : option Q :=
  js_index (closes history) (Z.of_nat (length (closes history)) - 1).

Definition lastRsi (history : list PriceBar) : option Q :=
  let rsi := RSI_calculate 14 (closes history) in
  js_index rsi (Z.of_nat (length rsi) - 1).

Definition prevRsi (history : list PriceBar) : option Q :=
  let rsi := RSI_calculate 14 (closes history) in
  js_index rsi (Z.of_nat (length rsi) - 2).

(** [checkBuyCondition], from the history already fetched.  Reading
    [lastBb.lower] throws when the Bollinger array is empty. *)
Definition checkBuyCondition (history : list PriceBar) : outcome bool :=
  if (length history <? 50)%nat then Returns false
  else
    match lastBb history with
    | None => Throws
    | Some b =>
        Returns (rsiDropped (lastRsi history) (prevRsi history)
                 && bbOutLower (lastClose history) b)
    end.

(** The RSI pair of a cycle shows the fall through 30. *)
Definition crossing (history : list PriceBar) : bool :=
  rsiDropped (lastRsi history) (prevRsi history).

(** The band test of a cycle. *)
Definition belowBand (history : list PriceBar) : Prop :=
  exists c b, lastClose history = Some c
              /\ lastBb history = Some b
              /\ c < Indicators.lower b.

(** [updateCurrentPrices]: [None] when the portfolio is empty (the
    function returns before [setCurrentPrices]), otherwise the new price
    table, holding the truthy quotes only. *)
Definition updateCurrentPrices (portfolio : list Position)
  : option (gmap string Q) :=
  match portfolio with
  | [] => None
  | _ =>
      Some (fold_left
              (fun newPrices s =>
                 match getQuote s with
                 | Some price => if truthy (Some price)
                                 then <[ s := price ]> newPrices
                                 else newPrices
                 | None => newPrices
                 end)
              (map symbol portfolio) ∅)
  end.

(** The test of line 141 for one position, given its quote:
    [currPrice * pos.shares <= BUY_AMOUNT - LOSS_THRESHOLD], the product
    and the difference being those of double arithmetic. *)
Definition lossCut (currPrice : Q) (pos : Position) : bool :=
  Qle_bool (Double.mul currPrice (shares pos))
           (Double.sub BUY_AMOUNT LOSS_THRESHOLD).

(** The sell loop (lines 136-145): [k] is [i + 1], so the loop starts at
    [k = newPortfolio.length] and ends at [k = 0].  [splice(i, 1)]
    deletes the element at index [i]. *)
Fixpoint checkSells (currentPrices : gmap string Q) (k : nat)
    (newPortfolio : list Position) : outcome (list Position) :=
  match k with
  | O => Returns newPortfolio
  | S i =>
      match newPortfolio !! i with
      | None => Throws
      | Some pos =>
          let currPrice := currentPrices !! symbol pos in
          if negb (truthy currPrice) then checkSells currentPrices i newPortfolio
          else
            match currPrice with
            | Some p =>
                if lossCut p pos
                then checkSells currentPrices i (delete i newPortfolio)
                else checkSells currentPrices i newPortfolio
            | None => checkSells currentPrices i newPortfolio
            end
      end
  end.

(** Whether the body of the sell loop deletes a position: its symbol has
    a usable price and the value at that price is at or below the bound. *)
Definition sold (currentPrices : gmap string Q) (pos : Position) : bool :=
  match currentPrices !! symbol pos with
  | Some p => truthy (Some p) && lossCut p pos
  | None => false
  end.

(** The buy loop (lines 153-171).  [portfolio] is the array bound when
    the function was created; [st] is the React state that the updater
    [prev => [...prev, newPos]] extends.  The flag tells whether the loop
    ran to its end; it is false when [checkBuyCondition] threw. *)
Fixpoint checkBuys (portfolio : list Position) (todo : list string)
    (st : list Position) : list Position * bool :=
  match todo with
  | [] => (st, true)
  | s :: rest =>
      if existsb (fun p => String.eqb (symbol p) s) portfolio
      then checkBuys portfolio rest st
      else
        match checkBuyCondition (getHistorical s) with
        | Throws => (st, false)
        | Returns false => checkBuys portfolio rest st
        | Returns true =>
            match getQuote s with
            | Some currPrice =>
                if truthy (Some currPrice)
                then
                  let newPos := {| symbol := s; buyPrice := currPrice;
                                   shares := Double.div BUY_AMOUNT currPrice;
                                   buyValue := BUY_AMOUNT;
                                   buyTime := now |} in
                  checkBuys portfolio rest (st ++ [newPos])
                else checkBuys portfolio rest st
            | None => checkBuys portfolio rest st
            end
        end
  end.

(** What one call of [scanAndTrade] leaves behind: the argument of
    [setCurrentPrices] and the portfolio state after the [setPortfolio]
    calls ([None] when the call was never made), and whether the
    function ran to its end. *)
Record scanResult := {
  newPrices : option (gmap string Q);
  portfolioState : option (list Position);
  completed : bool
}.

(** [scanAndTrade].  [portfolio] and [currentPrices] are the values of
    the enclosing render; the state set by [updateCurrentPrices] is not
    what the sell loop reads. *)
Definition scanAndTrade (portfolio : list Position)
    (currentPrices : gmap string Q) : scanResult :=
  let prices' := updateCurrentPrices portfolio in
  match checkSells currentPrices (length portfolio) portfolio with
  | Throws =>
      {| newPrices := prices'; portfolioState := None; completed := false |}
  | Returns newPortfolio =>
      let sp500Trending := filter (λ s, s ∈ sp500) getTrending in
      let '(st, fin) := checkBuys portfolio sp500Trending newPortfolio in
      {| newPrices := prices'; portfolioState := Some st; completed := fin |}
  end.

End Scan.

(** What one firing of the timer finds on the network: the answers of
    [getHistorical], [getQuote] and [getTrending] and the clock. *)
Record tick := {
  history_at : string -> list PriceBar;
  quote_at : string -> option Q;
  trending_at : list string;
  time_at : Z
}.

Section Timer.

Variable RSI_calculate : nat -> list Q -> list Q.
Variable BollingerBands_calculate : nat -> Q -> list Q -> list Indicators.bands.
Variable sp500 : gset string.

(** The scan that a firing runs.  The effect of lines 29-39 depends on
    [sp500] alone, so it runs once, in the render where the index has
    arrived; the first call and every call of the interval are calls of
    the [scanAndTrade] of that render, whose [portfolio] is the initial
    [[]] and whose [currentPrices] is the initial [{}]. *)
Definition timerScan (t : tick) : scanResult :=
  scanAndTrade RSI_calculate BollingerBands_calculate
    (history_at t) (quote_at t) (trending_at t) sp500 (time_at t) [] ∅.

(** The [portfolio] state after a firing: [setPortfolio(newPortfolio)]
    replaces it and the updaters of the buy loop extend the replacement;
    it is left alone when the sell loop threw before line 146. *)
Definition afterTick (state : list Position) (t : tick) : list Position :=
  match portfolioState (timerScan t) with
  | Some st => st
  | None => state
  end.

(** The [portfolio] state after a run of firings, from the initial
    empty state. *)
Definition runTimer (ticks : list tick) : list Position :=
  fold_left afterTick ticks [].

End Timer.

(** Bars whose four prices are the close. *)
Definition bars_of (closes : list Z) : list PriceBar :=
  imap (fun i c => {| date := Z.of_nat i; open := inject_Z c;
                      high := inject_Z c; low := inject_Z c;
                      close := inject_Z c; volume := 0 |}) closes.

Fixpoint alternate (n : nat) (a b : Z) : list Z :=
  match n with
  | O => []
  | S k => a :: alternate k b a
  end.

Fixpoint descend (n : nat) (from step : Z) : list Z :=
  match n with
  | O => []
  | S k => from :: descend k (from - step)%Z step
  end.

(** Forty-nine bars between 100 and 101, then a fall to 90: the RSI goes
    from 48.3 to 27.3 and the close ends under the lower band (95.3). *)
Definition quiet_then_drop : list PriceBar :=
  bars_of (alternate 49 100 101 ++ [90%Z]).

(** Thirty-five bars between 100 and 101, a jump to 200, then ten off
    per bar down to 60: the RSI decays from 94 to 31.3 and then 28.9 on
    the last bar, while the lower band is far below (43.5). *)
Definition jump_then_slide : list PriceBar :=
  bars_of (alternate 35 100 101 ++ descend 15 200 10).

(** The histories seen by successive cycles when one bar arrives per
    cycle. *)
Definition prefixes {A : Type} (l : list A) : list (list A) :=
  map (fun n => firstn n l) (seq 1 (length l)).

(** A feed where a new listing has thirty bars only. *)
Definition thin_history (s : string) : list PriceBar :=
  if String.eqb s "NEWCO" then firstn 30 quiet_then_drop else quiet_then_drop.

(** Fifty-two daily closes that drift, then fall for four days.  With
    one bar arriving per cycle, the cycles that see 50, 51 and 52 bars
    report an RSI of 38.6, 25.6 and 21.0. *)
Definition drift_then_fall : list PriceBar :=
  bars_of [101; 133; 87; 102; 107; 105; 101; 101; 102; 110; 104; 102; 108;
           108; 109; 105; 107; 113; 108; 105; 111; 113; 110; 113; 113; 110;
           110; 110; 110; 110; 111; 111; 109; 108; 108; 108; 107; 106; 104;
           104; 103; 101; 104; 104; 101; 101; 101; 101; 100; 99; 94; 85]%Z.

(** A position of twenty shares bought at 100. *)
Definition twenty_at_100 : Position :=
  {| symbol := "AAPL"; buyPrice := 100; shares := Double.div BUY_AMOUNT 100;
     buyValue := BUY_AMOUNT; buyTime := 0 |}.

(** A position bought at a given price, sized as line 159 sizes it. *)
Definition bought_at (price : Q) : Position :=
  {| symbol := "AAPL"; buyPrice := price;
     shares := Double.div BUY_AMOUNT price;
     buyValue := BUY_AMOUNT; buyTime := 0 |}.

(** A firing where AAPL trends, its history ends in the fall of
    [quiet_then_drop] and its quote is 100; and a later firing where its
    history is [jump_then_slide] and its quote 95. *)
Definition aapl_signal_at_100 : tick :=
  {| history_at := fun _ => quiet_then_drop;
     quote_at := fun _ => Some 100;
     trending_at := ["AAPL"%string];
     time_at := 1 |}.

Definition aapl_quiet_at_95 : tick :=
  {| history_at := fun _ => jump_then_slide;
     quote_at := fun _ => Some 95;
     trending_at := ["AAPL"%string];
     time_at := 2 |}.

Definition quoted (p : Q) : gmap string Q := {[ "AAPL"%string := p ]}.

End Portfolio.

(* ===================================================================== *)
(** ** 0DTE option scanner (odte.py)                                      *)
(* ===================================================================== *)

Module ZeroDTE.

(** The [option_type] column, set by [get_0dte_options] to ['call'] on
    the calls frame and ['put'] on the puts frame. *)
Inductive option_type := call | put.

(** The columns of an option row that the scoring reads. *)
Record row := {
  kind : option_type;
  lastPrice : Q;
  impliedVolatility : Q;
  strike : Q
}.

Definition risk_reward_min : Q := 3.

(** Python's [a / b] on floats: [ZeroDivisionError] on a zero divisor,
    otherwise the quotient rounded to a double. *)
Definition py_div (a b : Q) : option Q :=
  if Qeq_bool b 0 then None else Some (Double.div a b).

(** [x / max_loss if max_loss > 0 else 0]. *)
Definition guarded_ratio (potential_reward max_loss : Q) : option Q :=
  if Qlt_bool 0 max_loss then py_div potential_reward max_loss else Some 0.

(** The body of the loop over rows (lines 181-194): the value stored in
    [row['risk_reward']], or [None] when the body raises. *)
Definition risk_reward (r : row) : option Q :=
  match py_div (Double.mul (lastPrice r) 100) (impliedVolatility r) with
  | None => None
  | Some underlying_price =>
      match kind r with
      | call =>
          let potential_reward :=
            Double.mul (Double.mul (impliedVolatility r) underlying_price)
                       (Double.literal (1 # 10)) in
          let max_loss := lastPrice r in
          guarded_ratio potential_reward max_loss
      | put =>
          let potential_reward :=
            if Qlt_bool (lastPrice r) (strike r)
            then Double.sub (strike r) (lastPrice r) else 0 in
          let max_loss := lastPrice r in
          guarded_ratio potential_reward max_loss
      end
  end.

(** The loop of [calculate_risk_reward]: the scored rows, or [None] when
    some row raised (the exception leaves the function). *)
Fixpoint score_rows (rows : list row) : option (list (row * Q)) :=
  match rows with
  | [] => Some []
  | r :: rest =>
      match risk_reward r with
      | None => None
      | Some rr =>
          match score_rows rest with
          | None => None
          | Some scored => Some ((r, rr) :: scored)
          end
      end
  end.

(** [calculate_risk_reward]: score, then keep the rows at or above the
    configured minimum. *)
Definition calculate_risk_reward (rows : list row) : option (list (row * Q)) :=
  match score_rows rows with
  | None => None
  | Some scored =>
      Some (List.filter (fun x => Qle_bool risk_reward_min (snd x)) scored)
  end.

(** An entry of [self.positions]. *)
Record position := {
  symbol : string;
  contracts : Z;
  entry_price : Q;
  stop_loss : Q;
  take_profit : Q;
  order_id : option Z
}.

(** Python's [==] on two position dictionaries. *)
Definition position_eqb (p q : position) : bool :=
  String.eqb (symbol p) (symbol q)
  && Z.eqb (contracts p) (contracts q)
  && Qeq_bool (entry_price p) (entry_price q)
  && Qeq_bool (stop_loss p) (stop_loss q)
  && Qeq_bool (take_profit p) (take_profit q)
  && match order_id p, order_id q with
     | Some a, Some b => Z.eqb a b
     | None, None => true
     | _, _ => false
     end.

(** [list.remove(x)]: deletes the first element equal to [x]. *)
Fixpoint remove (x : position) (l : list position) : list position :=
  match l with
  | [] => []
  | y :: rest => if position_eqb y x then rest else y :: remove x rest
  end.

Inductive reason := stop_loss_hit | take_profit_hit.

(** What the two tests of lines 309 and 314 decide for a price. *)
Definition exit_test (current_price : Q) (p : position) : option reason :=
  if Qle_bool current_price (stop_loss p) then Some stop_loss_hit
  else if Qle_bool (take_profit p) current_price then Some take_profit_hit
  else None.

Section Monitor.

(** [client.get_quote(symbol).json()[symbol]['lastPrice']]; [None] when
    the request or the lookup raises, which the [except] of the loop
    body catches. *)
Variable get_quote : string -> option Q.

(** What the loop body decides for a position: the price available for
    its symbol, if any, against its two levels. *)
Definition decision (p : position) : option reason :=
  match get_quote (symbol p) with
  | None => None
  | Some current_price => exit_test current_price p
  end.

Definition stays (p : position) : bool :=
  match decision p with Some _ => false | None => true end.

Definition close_order (p : position) : list (position * reason) :=
  match decision p with Some why => [(p, why)] | None => [] end.

(** One iteration of the loop of [monitor_positions], on the live list
    and the log of close orders sent. *)
Definition monitor_step (p : position)
    (st : list position * list (position * reason))
  : list position * list (position * reason) :=
  match get_quote (symbol p) with
  | None => st
  | Some current_price =>
      match exit_test current_price p with
      | Some why => (remove p (fst st), snd st ++ [(p, why)])
      | None => st
      end
  end.

(** [monitor_positions]: the loop runs over a copy of the list and
    mutates the list itself. *)
Definition monitor_positions (positions : list position)
  : list position * list (position * reason) :=
  fold_left (fun st p => monitor_step p st) positions (positions, []).

End Monitor.

(** A call quoted at 1 with a strike of 100 whose implied volatility is
    reported as zero, and a put that scores well. *)
Definition call_without_volatility : row :=
  {| kind := call; lastPrice := 1; impliedVolatility := 0; strike := 100 |}.

Definition cheap_put : row :=
  {| kind := put; lastPrice := 1; impliedVolatility := 1 # 2; strike := 100 |}.

(** Two option positions bought at 1.05, with the stop at half and the
    target at two and a half times the entry; the first is quoted 0.40,
    the second has no quote. *)
Definition spy_call : position :=
  {| symbol := "SPY_C450"; contracts := 3; entry_price := 105 # 100;
     stop_loss := 525 # 1000; take_profit := 2625 # 1000; order_id := Some 1%Z |}.

Definition qqq_put : position :=
  {| symbol := "QQQ_P370"; contracts := 2; entry_price := 105 # 100;
     stop_loss := 525 # 1000; take_profit := 2625 # 1000; order_id := None |}.

Definition spy_quoted_low (s : string) : option Q :=
  if String.eqb s "SPY_C450" then Some (40 # 100) else None.

(** The entries of [CONFIG] that [execute_trade] reads. *)
Definition max_position_size : Q := Double.literal (5 # 100).
Definition limit_price_buffer : Q := Double.literal (5 # 100).
Definition max_loss_percent : Q := Double.literal (50 # 100).
Definition take_profit_percent : Q := Double.literal (150 # 100).

(** Python's [int(x)] on a float: truncation toward zero. *)
Definition py_int (x : Q) : Z := Z.quot (Qnum x) (Zpos (Qden x)).

Section Trade.

(** [_get_account_value()]: [None] when the request raises. *)
Variable get_account_value : option Q.

(** The option symbol that lines 257-265 assemble from the ticker, the
    date, the option type and the strike. *)
Variable format_symbol : row -> string.

(** [client.place_order(...).json()]: [None] when the call raises,
    otherwise the [orderId] of the response when it has one. *)
Variable place_order : string -> Z -> Q -> option (option Z).

(** [execute_trade]: the list of positions afterwards and the boolean
    returned.  Every exception ends in the [except] branch, which returns
    [False]. *)
Definition execute_trade (positions : list position) (option_data : row)
  : list position * bool :=
  match get_account_value with
  | None => (positions, false)
  | Some account_value =>
      let max_position_value := Double.mul account_value max_position_size in
      let contract_price := lastPrice option_data in
      let contract_cost := Double.mul contract_price 100 in
      match py_div max_position_value contract_cost with
      | None => (positions, false)
      | Some ratio =>
          let max_contracts := py_int ratio in
          if (max_contracts <? 1)%Z then (positions, false)
          else
            let sym := format_symbol option_data in
            let limit_price :=
              Double.mul (lastPrice option_data)
                         (Double.add 1 limit_price_buffer) in
            match place_order sym max_contracts limit_price with
            | None => (positions, false)
            | Some response_id =>
                (positions ++
                   [ {| symbol := sym;
                        contracts := max_contracts;
                        entry_price := limit_price;
                        stop_loss :=
                          Double.mul limit_price
                                     (Double.sub 1 max_loss_percent);
                        take_profit :=
                          Double.mul limit_price
                                     (Double.add 1 take_profit_percent);
                        order_id := response_id |} ],
                 true)
            end
      end
  end.

End Trade.

Section Orders.

Variable get_quote : string -> option Q.

(** [_close_position]: [true] when the sell order went through, [false]
    when placing it raised; the caller ignores the value. *)
Variable close_position : position -> reason -> bool.

(** The loop body of [monitor_positions] with the result of the close
    order kept in the log. *)
Definition monitor_step_orders (p : position)
    (st : list position * list (position * reason * bool))
  : list position * list (position * reason * bool) :=
  match get_quote (symbol p) with
  | None => st
  | Some current_price =>
      match exit_test current_price p with
      | Some why =>
          let sent := close_position p why in
          (remove p (fst st), snd st ++ [(p, why, sent)])
      | None => st
      end
  end.

Definition monitor_positions_orders (positions : list position)
  : list position * list (position * reason * bool) :=
  fold_left (fun st p => monitor_step_orders p st) positions (positions, []).

End Orders.

(** A log entry without the result of its order. *)
Definition forget_result (e : position * reason * bool) : position * reason :=
  (fst (fst e), snd (fst e)).

(** The monitoring loop of [run] (lines 364-366),
    [while self.positions: self.monitor_positions(); time.sleep(5)]:
    one quote service per pass, for as many passes as [ticks] has. *)
Fixpoint monitoring_loop (ticks : list (string -> option Q))
    (positions : list position) : list position * list (position * reason) :=
  match ticks with
  | [] => (positions, [])
  | get_quote :: rest =>
      match positions with
      | [] => ([], [])
      | _ =>
          let '(remaining, sent) := monitor_positions get_quote positions in
          let '(final, sent') := monitoring_loop rest remaining in
          (final, sent ++ sent')
      end
  end.

(** A call and two puts at a premium of 2, and a put at a premium of 0.7
    with a strike of 2.8, four times the premium. *)
Definition spy_call_row : row :=
  {| kind := call; lastPrice := 2;
     impliedVolatility := Double.literal (3 # 10); strike := 450 |}.

Definition far_put : row :=
  {| kind := put; lastPrice := 2;
     impliedVolatility := Double.literal (3 # 10); strike := 8 |}.

Definition near_put : row :=
  {| kind := put; lastPrice := 2;
     impliedVolatility := Double.literal (3 # 10); strike := 7 |}.

Definition put_at_four_times : row :=
  {| kind := put; lastPrice := Double.literal (7 # 10);
     impliedVolatility := Double.literal (3 # 10);
     strike := Double.literal (28 # 10) |}.

(** The largest double below 2000. *)
Definition just_under_2000 : Q := 2000 - (1 # 4398046511104).

Definition premium_of_one : row :=
  {| kind := call; lastPrice := 1;
     impliedVolatility := Double.literal (3 # 10); strike := 450 |}.

Definition spy_symbol (r : row) : string := "SPY_C450".

Definition broker_accepts (s : string) (n : Z) (limit : Q) : option (option Z) :=
  Some (Some 7%Z).

End ZeroDTE.

(* ===================================================================== *)
(** * Properties                                                          *)
(* ===================================================================== *)

(** ** Rounding to doubles *)

Module DoubleFacts.
Import Double.

Lemma inv_inject_pos (z : Z) : (0 < z)%Z -> 1 # Z.to_pos z == / inject_Z z.
Proof. destruct z; try lia. intros _. reflexivity. Qed.

Lemma pow2_Qpower (s : Z) : pow2 s == 2 ^ s.
Proof.
  unfold pow2. destruct (0 <=? s)%Z eqn:E.
  - apply Z.leb_le in E. rewrite Zpower_Qpower by exact E. reflexivity.
  - apply Z.leb_gt in E.
    assert (Hp : (0 < 2 ^ (- s))%Z) by (apply Z.pow_pos_nonneg; lia).
    rewrite (inv_inject_pos _ Hp), Zpower_Qpower by lia.
    rewrite <- Qpower_opp, Z.opp_involutive. reflexivity.
Qed.

Lemma pow2_pos (s : Z) : 0 < pow2 s.
Proof. rewrite pow2_Qpower. apply Qpower_0_lt. reflexivity. Qed.

Lemma pow2_add (a b : Z) : pow2 (a + b) == pow2 a * pow2 b.
Proof.
  rewrite !pow2_Qpower. apply Qpower_plus. intros H. discriminate H.
Qed.

Lemma rint_error (y : Q) :
  inject_Z (rint y) - (1 # 2) <= y /\ y <= inject_Z (rint y) + (1 # 2).
Proof.
  destruct y as [n d]. unfold rint. cbn [Qnum Qden].
  pose proof (Z.div_mod n (Zpos d) ltac:(lia)) as Hdm.
  pose proof (Z.mod_pos_bound n (Zpos d) ltac:(lia)) as Hr.
  set (f := (n / Zpos d)%Z) in *. set (r := (n mod Zpos d)%Z) in *.
  destruct (Z.compare_spec (2 * r) (Zpos d)) as [E|E|E];
    [destruct (Z.even f)| |];
    unfold Qle, Qminus, Qplus, Qopp, inject_Z; cbn [Qnum Qden]; split; nia.
Qed.

Lemma rint_nonneg (y : Q) : 0 <= y -> (0 <= rint y)%Z.
Proof.
  destruct y as [n d]. unfold Qle, rint. cbn [Qnum Qden]. intros Hn.
  assert (0 <= n / Zpos d)%Z by (apply Z.div_pos; lia).
  destruct (2 * (n mod Zpos d) ?= Zpos d)%Z; [destruct (Z.even _)| |]; lia.
Qed.

Lemma exponent_le (a : Q) : 0 < a -> pow2 (exponent a + 52) <= a.
Proof.
  intros Ha. unfold exponent.
  set (e0 := (Z.log2 (Qnum a) - Z.log2 (Zpos (Qden a)))%Z).
  destruct (Qle_bool (pow2 e0) a) eqn:E.
  - apply Qle_bool_iff in E. now replace (e0 - 52 + 52)%Z with e0 by lia.
  - replace (e0 - 1 - 52 + 52)%Z
      with (Z.log2 (Qnum a) + - (Z.log2 (Zpos (Qden a)) + 1))%Z by (unfold e0; lia).
    rewrite pow2_add.
    destruct a as [n d]. cbn [Qnum Qden] in *. clear E e0.
    assert (Hn : (0 < n)%Z) by (unfold Qlt in Ha; simpl in Ha; lia).
    pose proof (Z.log2_spec n Hn) as [Hln _].
    pose proof (Z.log2_spec (Zpos d) ltac:(lia)) as [_ Hld].
    pose proof (Z.log2_nonneg n) as Hl0.
    pose proof (Z.log2_nonneg (Zpos d)) as Hd0.
    unfold pow2.
    destruct (0 <=? Z.log2 n)%Z eqn:E1; [|apply Z.leb_gt in E1; lia].
    destruct (0 <=? - (Z.log2 (Zpos d) + 1))%Z eqn:E2; [apply Z.leb_le in E2; lia|].
    rewrite Z.opp_involutive.
    replace (Z.log2 (Zpos d) + 1)%Z with (Z.succ (Z.log2 (Zpos d))) by lia.
    set (x := (2 ^ Z.log2 n)%Z) in *. set (y := (2 ^ Z.succ (Z.log2 (Zpos d)))%Z) in *.
    assert (Hy : (0 < y)%Z) by lia.
    unfold Qle, Qmult, inject_Z. cbn [Qnum Qden].
    rewrite Pos.mul_1_l, Z2Pos.id by exact Hy. nia.
Qed.

Lemma round_bounds (q : Q) :
  0 < q ->
  q * (1 - unit_roundoff) <= round q /\ round q <= q * (1 + unit_roundoff).
Proof.
  intros Hq. unfold round.
  destruct (Qeq_bool q 0) eqn:E0; [apply Qeq_bool_iff in E0; lra|].
  assert (Habs : Qabs q = q).
  { destruct q as [[|p|p] d]; try reflexivity; unfold Qlt in Hq; simpl in Hq; lia. }
  rewrite Habs.
  assert (Hle : Qle_bool 0 q = true) by (apply Qle_bool_iff; lra).
  rewrite Hle, Qred_correct.
  set (s := exponent q).
  pose proof (pow2_pos s) as HP.
  pose proof (exponent_le q Hq) as Hexp. fold s in Hexp.
  rewrite pow2_add in Hexp.
  assert (H52 : pow2 52 == 4503599627370496) by reflexivity.
  rewrite H52 in Hexp.
  pose proof (rint_error (q / pow2 s)) as [Hlo Hhi].
  set (R := inject_Z (rint (q / pow2 s))) in *.
  assert (Hy : q / pow2 s * pow2 s == q) by (field; lra).
  apply (Qmult_le_compat_r _ _ (pow2 s)) in Hlo; [|lra].
  apply (Qmult_le_compat_r _ _ (pow2 s)) in Hhi; [|lra].
  rewrite Hy in Hlo, Hhi.
  set (P := pow2 s) in *. set (RP := R * P).
  assert (E1 : (R - (1 # 2)) * P == RP - P * (1 # 2)) by (unfold RP; ring).
  assert (E2 : (R + (1 # 2)) * P == RP + P * (1 # 2)) by (unfold RP; ring).
  rewrite E1 in Hlo. rewrite E2 in Hhi.
  unfold unit_roundoff. split; lra.
Qed.

Lemma round_nonneg (q : Q) : 0 <= q -> 0 <= round q.
Proof.
  intros Hq. destruct (Qeq_dec q 0) as [E|E].
  - unfold round. apply Qeq_bool_iff in E. rewrite E. lra.
  - assert (Hpos : 0 < q) by lra.
    destruct (round_bounds q Hpos) as [Hlo _].
    assert (0 <= q * (1 - unit_roundoff)).
    { apply Qmult_le_0_compat; [lra|]. unfold unit_roundoff. lra. }
    lra.
Qed.

Lemma round_nonpos (q : Q) : q <= 0 -> round q <= 0.
Proof.
  intros Hq. unfold round.
  destruct (Qeq_bool q 0) eqn:E0; [lra|].
  destruct (Qle_bool 0 q) eqn:E1.
  - apply Qle_bool_iff in E1.
    assert (q == 0) by lra. apply Qeq_bool_iff in H. congruence.
  - rewrite Qred_correct.
    assert (0 <= inject_Z (rint (Qabs q / pow2 (exponent (Qabs q))))
                 * pow2 (exponent (Qabs q))).
    { apply Qmult_le_0_compat; [|apply Qlt_le_weak, pow2_pos].
      change 0 with (inject_Z 0). rewrite <- Zle_Qle. apply rint_nonneg.
      apply Qle_shift_div_l; [apply pow2_pos|]. rewrite Qmult_0_l. apply Qabs_nonneg. }
    lra.
Qed.

Lemma round_zero (q : Q) : q == 0 -> round q = 0.
Proof. intros H. unfold round. apply Qeq_bool_iff in H. now rewrite H. Qed.

End DoubleFacts.

(** ** The day-gainers monitor *)

Module GainersFacts.
Import Gainers.

Lemma split_head_no_dot (s : string) :
  string_mem "."%char (split_head s) = false.
Proof.
  induction s as [|c r IH]; simpl; [reflexivity|].
  destruct (Ascii.eqb c ".") eqn:E; simpl; [reflexivity|].
  now rewrite E, IH.
Qed.

Lemma accepted_well_formed tbl (raw : string) :
  accepted tbl (split_head raw) = true → well_formed tbl (split_head raw).
Proof.
  unfold accepted, well_formed. intros H.
  apply andb_prop in H as [H Halnum]. apply andb_prop in H as [Hne Hlen].
  repeat split.
  - apply split_head_no_dot.
  - intros E. rewrite E in Hne. discriminate.
  - now apply Nat.leb_le.
  - exact Halnum.
Qed.

Lemma fold_add_quote tbl (qs : list string) (acc : gset string) (x : string) :
  x ∈ fold_left (add_quote tbl) qs acc → x ∈ acc ∨ well_formed tbl x.
Proof.
  revert acc. induction qs as [|q qs IH]; simpl; intros acc Hx; [now left|].
  apply IH in Hx as [Hx|Hx]; [|now right].
  unfold add_quote in Hx.
  destruct (accepted tbl (split_head q)) eqn:E; [|now left].
  apply elem_of_union in Hx as [Hx|Hx]; [now left|].
  apply elem_of_singleton in Hx. subst x. right.
  now apply accepted_well_formed.
Qed.

Lemma fetch_tickers_well_formed tbl (r : response) (x : string) :
  x ∈ fetch_tickers tbl r → well_formed tbl x.
Proof.
  destruct r as [|qs]; simpl; intros Hx.
  - set_solver.
  - apply fold_add_quote in Hx as [Hx|Hx]; [set_solver | exact Hx].
Qed.

(** The case analysis of [check_for_new_tickers], as one equation per
    path. *)
Lemma check_quiet (a : agent) (cur : gset string) (ok : save_outcome) :
  new_tickers a cur = ∅ → check_for_new_tickers a cur ok = (a, None).
Proof.
  intros H. unfold check_for_new_tickers.
  destruct (decide (cur = ∅)); [reflexivity|].
  simpl. destruct (decide (new_tickers a cur = ∅)); [reflexivity|contradiction].
Qed.

Lemma check_loud (a : agent) (cur : gset string) (ok : save_outcome) :
  new_tickers a cur ≠ ∅ →
  check_for_new_tickers a cur ok =
    (save_state ok {| known_tickers := known_tickers a ∪ new_tickers a cur;
                      state_file := state_file a |},
     Some (new_tickers a cur)).
Proof.
  intros H. unfold check_for_new_tickers.
  destruct (decide (cur = ∅)) as [E|E].
  - exfalso. apply H. unfold new_tickers. set_solver.
  - simpl. destruct (decide (new_tickers a cur = ∅)); [contradiction|reflexivity].
Qed.

Lemma known_after_check (a : agent) (cur : gset string) (ok : save_outcome) :
  known_tickers (fst (check_for_new_tickers a cur ok))
  = known_tickers a ∪ new_tickers a cur.
Proof.
  destruct (decide (new_tickers a cur = ∅)) as [E|E].
  - rewrite check_quiet by exact E. simpl. rewrite E. set_solver.
  - rewrite check_loud by exact E. simpl. now destruct ok.
Qed.

Lemma announced_is_delta (a : agent) (cur s : gset string) (ok : save_outcome) :
  snd (check_for_new_tickers a cur ok) = Some s → s = new_tickers a cur ∧ s ≠ ∅.
Proof.
  destruct (decide (new_tickers a cur = ∅)) as [E|E].
  - rewrite check_quiet by exact E. discriminate.
  - rewrite check_loud by exact E. simpl. intros [= <-]. now split.
Qed.

Lemma file_after_check (a : agent) (cur : gset string) (ok : save_outcome) :
  state_file (fst (check_for_new_tickers a cur ok)) = state_file a
  ∨ state_file (fst (check_for_new_tickers a cur ok))
    = Some (known_tickers a ∪ new_tickers a cur)
  ∨ state_file (fst (check_for_new_tickers a cur ok)) = None.
Proof.
  destruct (decide (new_tickers a cur = ∅)) as [E|E].
  - rewrite check_quiet by exact E. now left.
  - rewrite check_loud by exact E. destruct ok; simpl; auto.
Qed.

Lemma delta_after_check (a : agent) (cur : gset string) (ok : save_outcome) :
  new_tickers (fst (check_for_new_tickers a cur ok)) cur = ∅.
Proof.
  unfold new_tickers at 1. rewrite known_after_check.
  unfold new_tickers. apply set_eq. intros x.
  rewrite elem_of_difference, elem_of_union, elem_of_difference.
  split; [|intros Hx; exfalso; revert Hx; apply not_elem_of_empty].
  intros [Hcur Hnot]. exfalso. apply Hnot.
  destruct (decide (x ∈ known_tickers a)); [left|right]; auto.
Qed.

Lemma monitor_loop_grows (a : agent) (cycles : list (gset string * save_outcome))
    (P : string → Prop) :
  Forall (λ c, ∀ x, x ∈ fst c → P x) cycles →
  (∀ x, x ∈ known_tickers (fst (monitor_loop a cycles)) →
        x ∈ known_tickers a ∨ P x)
  ∧ (∀ s x, In s (snd (monitor_loop a cycles)) → x ∈ s → P x)
  ∧ (∀ ts x, state_file (fst (monitor_loop a cycles)) = Some ts → x ∈ ts →
        (∃ ts0, state_file a = Some ts0 ∧ x ∈ ts0) ∨ x ∈ known_tickers a ∨ P x).
Proof.
  intros HP. revert a. induction HP as [|[cur ok] rest Hcur _ IH]; intros a.
  - simpl. repeat split; eauto. intros s x [].
  - simpl.
    pose proof (known_after_check a cur ok) as Hk.
    pose proof (announced_is_delta a cur) as Hann.
    pose proof (file_after_check a cur ok) as Hfile.
    specialize (Hann) with (ok := ok).
    destruct (check_for_new_tickers a cur ok) as [a1 ann] eqn:E1.
    simpl in Hk, Hann, Hfile.
    specialize (IH a1) as (IHk & IHa & IHf).
    destruct (monitor_loop a1 rest) as [a2 anns] eqn:E2. simpl in *.
    assert (Hstep : ∀ x, x ∈ known_tickers a1 → x ∈ known_tickers a ∨ P x).
    { intros x Hx. rewrite Hk in Hx. apply elem_of_union in Hx as [Hx|Hx].
      - left; exact Hx.
      - right. apply Hcur. unfold new_tickers in Hx.
        apply elem_of_difference in Hx. tauto. }
    repeat split.
    + intros x Hx. apply IHk in Hx as [Hx|Hx]; [auto|right; exact Hx].
    + intros s x Hs Hx. destruct ann as [d|].
      * destruct Hs as [<-|Hs]; [|eapply IHa; eauto].
        destruct (Hann d eq_refl) as [-> _]. apply Hcur.
        unfold new_tickers in Hx. apply elem_of_difference in Hx. tauto.
      * eapply IHa; eauto.
    + intros ts x Hts Hx.
      destruct (IHf ts x Hts Hx) as [(ts0 & Hts0 & Hx0)|[Hx1|Hx1]].
      * destruct Hfile as [Hf|[Hf|Hf]]; rewrite Hf in Hts0.
        -- left. eauto.
        -- injection Hts0 as <-. right. apply Hstep. rewrite Hk. exact Hx0.
        -- discriminate Hts0.
      * right. auto.
      * right. right. exact Hx1.
Qed.


(** C2, as the code has it. When the save of a cycle fails, the failure
    is swallowed and the new tickers are in the in-memory set all the
    same: the next cycle on the same fetched set has an empty delta and
    announces nothing.  On disk, the former content survives when the
    file could not be opened; when the write itself fails after an
    announcement the file is left unreadable, so that a restart begins
    from the empty set and finds the whole fetched set new again. *)
Theorem failed_save_commits_in_memory
    (a : agent) (current_tickers : gset string) (next : save_outcome) :
  let a_open := fst (check_for_new_tickers a current_tickers open_failed) in
  let a_write := fst (check_for_new_tickers a current_tickers write_failed) in
  known_tickers a_open = known_tickers a ∪ new_tickers a current_tickers
  ∧ known_tickers a_write = known_tickers a ∪ new_tickers a current_tickers
  ∧ snd (check_for_new_tickers a_open current_tickers next) = None
  ∧ snd (check_for_new_tickers a_write current_tickers next) = None
  ∧ state_file a_open = state_file a
  ∧ (new_tickers a current_tickers ≠ ∅ →
     state_file a_write = None
     ∧ known_tickers (init (state_file a_write)) = ∅
     ∧ new_tickers (init (state_file a_write)) current_tickers
       = current_tickers).
Proof.
  cbv zeta. split; [apply known_after_check|]. split; [apply known_after_check|].
  split; [rewrite check_quiet; [reflexivity|apply delta_after_check]|].
  split; [rewrite check_quiet; [reflexivity|apply delta_after_check]|].
  split.
  - destruct (decide (new_tickers a current_tickers = ∅)) as [E|E].
    + now rewrite check_quiet.
    + now rewrite check_loud.
  - intros E. rewrite check_loud by exact E. simpl.
    split; [reflexivity|]. split; [reflexivity|].
    unfold new_tickers. simpl. apply set_eq. intros x.
    rewrite elem_of_difference. split; [tauto|].
    intros Hx. split; [exact Hx|apply not_elem_of_empty].
Qed.

(** C10. Over any sequence of scan cycles, every ticker that the cycles
    add to the in-memory set or to the state file, and every ticker they
    announce, passed the validation: no dot is left in it, it is not
    empty, it has at most six characters and it is alphanumeric once
    dashes and dots are removed. *)
Theorem stored_tickers_validated
    (tbl : ascii -> bool) (a : agent) (cycles : list (response * save_outcome)) :
  (∀ x, x ∈ known_tickers (fst (scan_cycles tbl a cycles)) →
        x ∈ known_tickers a ∨ well_formed tbl x)
  ∧ (∀ s x, In s (snd (scan_cycles tbl a cycles)) → x ∈ s → well_formed tbl x)
  ∧ (∀ ts x, state_file (fst (scan_cycles tbl a cycles)) = Some ts → x ∈ ts →
        (∃ ts0, state_file a = Some ts0 ∧ x ∈ ts0)
        ∨ x ∈ known_tickers a ∨ well_formed tbl x).
Proof.
  unfold scan_cycles. apply monitor_loop_grows.
  apply Forall_forall. intros c Hc x Hx.
  apply list_elem_of_In, in_map_iff in Hc as ([r ok] & <- & _). simpl in Hx.
  eapply fetch_tickers_well_formed; eauto.
Qed.

Lemma msft_aapl_brings_news : new_tickers msft_known msft_aapl ≠ ∅.
Proof.
  intros E.
  assert (H : "AAPL"%string ∈ new_tickers msft_known msft_aapl).
  { apply (bool_decide_unpack
             ("AAPL"%string ∈ new_tickers msft_known msft_aapl)).
    vm_compute. exact I. }
  rewrite E in H. revert H. apply not_elem_of_empty.
Defined.

Lemma failed_save_commits_in_memory_witness :
  state_file (fst (check_for_new_tickers msft_known msft_aapl write_failed))
  = None
  ∧ new_tickers
      (init (state_file
               (fst (check_for_new_tickers msft_known msft_aapl write_failed))))
      msft_aapl
    = msft_aapl.
Proof.
  destruct (failed_save_commits_in_memory msft_known msft_aapl saved)
    as (_ & _ & _ & _ & _ & Hwrite).
  destruct (Hwrite msft_aapl_brings_news) as (Hfile & _ & Hagain).
  split; [exact Hfile|exact Hagain].
Defined.

(** C2, counterexample. A fresh agent sees AAPL and the save fails: AAPL
    is announced, nothing is persisted, yet on the next cycle with the
    same feed the delta is empty and not the set announced before. *)
Lemma failed_save_not_realerted :
  let cur : gset string := {[ "AAPL"%string ]} in
  let a1 := fst (check_for_new_tickers fresh cur write_failed) in
  snd (check_for_new_tickers fresh cur write_failed) = Some cur
  ∧ state_file a1 = None
  ∧ known_tickers a1 = cur
  ∧ new_tickers a1 cur = ∅
  ∧ new_tickers a1 cur ≠ cur
  ∧ snd (check_for_new_tickers a1 cur saved) = None.
Proof.
  cbv zeta.
  assert (Hne : ({[ "AAPL"%string ]} : gset string) ≠ ∅).
  { intros E. apply (not_elem_of_empty (C := gset string) "AAPL"%string).
    rewrite <- E. apply elem_of_singleton. reflexivity. }
  assert (Hd : new_tickers fresh {[ "AAPL"%string ]} = {[ "AAPL"%string ]}).
  { unfold new_tickers, fresh. simpl. apply set_eq. intros x.
    rewrite elem_of_difference. split; [tauto|].
    intros Hx. split; [exact Hx|apply not_elem_of_empty]. }
  rewrite check_loud by (rewrite Hd; exact Hne). rewrite Hd. simpl.
  assert (Hk : (∅ ∪ {[ "AAPL"%string ]} : gset string) = {[ "AAPL"%string ]}).
  { apply set_eq. intros x. rewrite elem_of_union. split; [|tauto].
    intros [Hx|Hx]; [|exact Hx]. exfalso. revert Hx. apply not_elem_of_empty. }
  assert (Hd2 : new_tickers
                  {| known_tickers := ∅ ∪ {[ "AAPL"%string ]}; state_file := None |}
                  {[ "AAPL"%string ]} = ∅).
  { unfold new_tickers. simpl. rewrite Hk. apply set_eq. intros x.
    rewrite elem_of_difference. split; [tauto|].
    intros Hx. exfalso. revert Hx. apply not_elem_of_empty. }
  split; [reflexivity|]. split; [reflexivity|].
  split; [exact Hk|]. split; [exact Hd2|]. split.
  - rewrite Hd2. intros E. apply Hne. symmetry. exact E.
  - rewrite check_quiet by exact Hd2. reflexivity.
Qed.

Lemma sample_feed_stored :
  "SHOP"%string ∈ known_tickers (fst (scan_cycles ascii_alnum fresh sample_feed)).
Proof.
  apply (bool_decide_unpack
           ("SHOP"%string
              ∈ known_tickers (fst (scan_cycles ascii_alnum fresh sample_feed)))).
  vm_compute. exact I.
Defined.

Lemma stored_tickers_validated_witness :
  "SHOP"%string ∈ known_tickers (fst (scan_cycles ascii_alnum fresh sample_feed))
  ∧ well_formed ascii_alnum "SHOP"%string.
Proof.
  split; [exact sample_feed_stored|].
  destruct (stored_tickers_validated ascii_alnum fresh sample_feed) as (Hk & _ & _).
  destruct (Hk "SHOP"%string sample_feed_stored) as [Hin|Hwf]; [|exact Hwf].
  exfalso. revert Hin. apply not_elem_of_empty.
Defined.

Example sample_feed_result :
  known_tickers (fst (scan_cycles ascii_alnum fresh sample_feed))
  = {[ "SHOP"%string; "BRK-B"%string ]}
  ∧ snd (scan_cycles ascii_alnum fresh sample_feed)
    = [ {[ "SHOP"%string; "BRK-B"%string ]} ].
Proof. vm_compute. split; reflexivity. Qed.

(** *** Fetching *)

Lemma fold_add_quote_iff tbl (qs : list string) (acc : gset string) (x : string) :
  x ∈ fold_left (add_quote tbl) qs acc
  ↔ x ∈ acc ∨ ∃ raw, In raw qs ∧ x = split_head raw ∧ accepted tbl x = true.
Proof.
  revert acc. induction qs as [|q qs IH]; intros acc; simpl.
  - split; [auto|]. intros [H|(raw & [] & _)]. exact H.
  - rewrite IH. unfold add_quote.
    destruct (accepted tbl (split_head q)) eqn:E.
    + rewrite elem_of_union, elem_of_singleton. split.
      * intros [[H | ->]|(raw & Hin & Hx & Hacc)]; eauto 8.
      * intros [H|(raw & [<-|Hin] & Hx & Hacc)]; eauto 8.
    + split.
      * intros [H|(raw & Hin & Hx & Hacc)]; eauto 8.
      * intros [H|(raw & [<-|Hin] & Hx & Hacc)]; eauto 8.
        subst x. congruence.
Qed.

(** X1. The set returned by [fetch_tickers] holds exactly the
    [split('.')[0]] of the quote symbols that pass the guard of line 84,
    whatever their order or repetition in the feed; it is empty when the
    request or the parsing failed. *)
Theorem fetch_tickers_exactly tbl (qs : list string) (x : string) :
  (x ∈ fetch_tickers tbl (Quotes qs)
     ↔ ∃ raw, In raw qs ∧ x = split_head raw ∧ accepted tbl x = true)
  ∧ fetch_tickers tbl FetchError = ∅.
Proof.
  split; [|reflexivity]. simpl. rewrite fold_add_quote_iff. split.
  - intros [H|H]; [|exact H]. exfalso. revert H. apply not_elem_of_empty.
  - auto.
Qed.

(** *** Runs of cycles *)

Lemma monitor_loop_known (a : agent) (cycles : list (gset string * save_outcome)) :
  known_tickers (fst (monitor_loop a cycles))
  = known_tickers a ∪ ⋃ (map fst cycles).
Proof.
  revert a. induction cycles as [|[cur ok] rest IH]; intros a; simpl.
  - apply set_eq. intros x. rewrite elem_of_union. split; [auto|].
    intros [H|H]; [exact H|]. exfalso. revert H. apply not_elem_of_empty.
  - pose proof (known_after_check a cur ok) as Hk.
    destruct (check_for_new_tickers a cur ok) as [a1 ann]. simpl in Hk.
    specialize (IH a1). destruct (monitor_loop a1 rest) as [a2 anns].
    simpl in *. rewrite IH, Hk. unfold new_tickers.
    apply set_eq. intros x.
    rewrite !elem_of_union, elem_of_difference.
    destruct (decide (x ∈ known_tickers a)); tauto.
Qed.

(** X3. Over any run of cycles the in-memory set ends as the set the run
    started with together with everything the cycles fetched: tickers
    are only ever added, and every fetched ticker is in it. *)
Theorem known_set_accumulates (a : agent) (cycles : list (gset string * save_outcome)) :
  known_tickers (fst (monitor_loop a cycles))
  = known_tickers a ∪ ⋃ (map fst cycles)
  ∧ known_tickers a ⊆ known_tickers (fst (monitor_loop a cycles))
  ∧ (∀ cur ok, In (cur, ok) cycles →
       cur ⊆ known_tickers (fst (monitor_loop a cycles))).
Proof.
  split; [apply monitor_loop_known|]. rewrite monitor_loop_known. split.
  - intros x Hx. apply elem_of_union. now left.
  - intros cur ok Hin x Hx. apply elem_of_union. right.
    apply elem_of_union_list. exists cur. split; [|exact Hx].
    apply list_elem_of_In, in_map_iff. exists (cur, ok). auto.
Qed.

Lemma announced_fresh (cycles : list (gset string * save_outcome)) :
  ∀ (a : agent) (s : gset string) (x : string),
    In s (snd (monitor_loop a cycles)) → x ∈ s → x ∉ known_tickers a.
Proof.
  induction cycles as [|[cur ok] rest IH]; intros a s x; simpl; [contradiction|].
  pose proof (known_after_check a cur ok) as Hk.
  pose proof (announced_is_delta a cur) as Hann. specialize Hann with (ok := ok).
  destruct (check_for_new_tickers a cur ok) as [a1 ann]. simpl in Hk, Hann.
  specialize (IH a1). destruct (monitor_loop a1 rest) as [a2 anns]. simpl in *.
  assert (Hrest : In s anns → x ∈ s → x ∉ known_tickers a).
  { intros Hs Hx Hin. apply (IH s x Hs Hx). rewrite Hk. apply elem_of_union. now left. }
  destruct ann as [d|]; [|exact Hrest].
  intros [<-|Hs] Hx; [|now apply Hrest].
  destruct (Hann d eq_refl) as [-> _]. unfold new_tickers in Hx.
  apply elem_of_difference in Hx. tauto.
Qed.

(** X4. No ticker is announced twice: over any run of cycles the
    announcements are non-empty, name no ticker that was known when the
    run started, and two different announcements share no ticker. *)
Theorem never_announced_twice (a : agent) (cycles : list (gset string * save_outcome)) :
  (∀ s, In s (snd (monitor_loop a cycles)) →
        s ≠ ∅ ∧ ∀ x, x ∈ s → x ∉ known_tickers a)
  ∧ (∀ (i j : nat) (s t : gset string) (x : string),
       snd (monitor_loop a cycles) !! i = Some s →
       snd (monitor_loop a cycles) !! j = Some t →
       x ∈ s → x ∈ t → i = j).
Proof.
  split.
  - intros s Hs. split; [|intros x Hx; eapply announced_fresh; eauto].
    revert a Hs. induction cycles as [|[cur ok] rest IH]; intros a; simpl; [contradiction|].
    pose proof (announced_is_delta a cur) as Hann. specialize Hann with (ok := ok).
    destruct (check_for_new_tickers a cur ok) as [a1 ann]. simpl in Hann.
    specialize (IH a1). destruct (monitor_loop a1 rest) as [a2 anns]. simpl in *.
    destruct ann as [d|]; [|exact IH].
    intros [<-|Hs]; [|now apply IH]. now destruct (Hann d eq_refl).
  - revert a. induction cycles as [|[cur ok] rest IH]; intros a i j s t x; simpl.
    + intros H. discriminate H.
    + pose proof (known_after_check a cur ok) as Hk.
      pose proof (announced_is_delta a cur) as Hann. specialize Hann with (ok := ok).
      pose proof (announced_fresh rest) as Hfresh.
      destruct (check_for_new_tickers a cur ok) as [a1 ann]. simpl in Hk, Hann.
      specialize (IH a1). specialize (Hfresh a1).
      destruct (monitor_loop a1 rest) as [a2 anns]. simpl in *.
      destruct ann as [d|]; [|apply IH].
      destruct (Hann d eq_refl) as [-> _].
      assert (Hclash : ∀ u, In u anns → x ∈ u →
                x ∈ new_tickers a cur → False).
      { intros u Hu Hxu Hxd. apply (Hfresh u x Hu Hxu). rewrite Hk.
        apply elem_of_union. now right. }
      destruct i as [|i], j as [|j]; simpl.
      * reflexivity.
      * intros [= <-] Ht Hxs Hxt. exfalso.
        apply (Hclash t); [|exact Hxt|exact Hxs].
        apply list_elem_of_In. eapply list_elem_of_lookup_2. exact Ht.
      * intros Hs [= <-] Hxs Hxt. exfalso.
        apply (Hclash s); [|exact Hxs|exact Hxt].
        apply list_elem_of_In. eapply list_elem_of_lookup_2. exact Hs.
      * intros Hs Ht Hxs Hxt. f_equal. eapply IH; eauto.
Qed.

Lemma never_announced_twice_witness :
  In ({[ "AAPL"%string ]} : gset string)
    (snd (monitor_loop msft_known [(msft_aapl, write_failed); (msft_aapl, saved)]))
  ∧ ({[ "AAPL"%string ]} : gset string) ≠ ∅.
Proof.
  assert (Hin : In ({[ "AAPL"%string ]} : gset string)
                  (snd (monitor_loop msft_known
                          [(msft_aapl, write_failed); (msft_aapl, saved)]))).
  { vm_compute. left. reflexivity. }
  split; [exact Hin|].
  destruct (never_announced_twice msft_known
              [(msft_aapl, write_failed); (msft_aapl, saved)]) as [Hfresh _].
  exact (proj1 (Hfresh _ Hin)).
Defined.

Lemma file_below_known (cycles : list (gset string * save_outcome)) :
  ∀ a, (∀ ts, state_file a = Some ts → ts ⊆ known_tickers a) →
       ∀ ts, state_file (fst (monitor_loop a cycles)) = Some ts →
             ts ⊆ known_tickers (fst (monitor_loop a cycles)).
Proof.
  induction cycles as [|[cur ok] rest IH]; intros a Hinv; simpl; [exact Hinv|].
  pose proof (known_after_check a cur ok) as Hk.
  pose proof (file_after_check a cur ok) as Hfile.
  destruct (check_for_new_tickers a cur ok) as [a1 ann]. simpl in Hk, Hfile.
  specialize (IH a1). destruct (monitor_loop a1 rest) as [a2 anns]. simpl in *.
  apply IH. intros ts Hts. rewrite Hk.
  destruct Hfile as [Hf|[Hf|Hf]]; rewrite Hf in Hts.
  - intros x Hx. apply elem_of_union. left. eapply Hinv; eauto.
  - now injection Hts as <-.
  - discriminate Hts.
Qed.

Lemma file_above_start (ts0 : gset string)
    (cycles : list (gset string * save_outcome)) :
  ∀ a, ts0 ⊆ known_tickers a →
       (∀ ts, state_file a = Some ts → ts0 ⊆ ts) →
       ∀ ts, state_file (fst (monitor_loop a cycles)) = Some ts → ts0 ⊆ ts.
Proof.
  induction cycles as [|[cur ok] rest IH]; intros a Hk0 Hf0; simpl; [exact Hf0|].
  pose proof (known_after_check a cur ok) as Hk.
  pose proof (file_after_check a cur ok) as Hfile.
  destruct (check_for_new_tickers a cur ok) as [a1 ann]. simpl in Hk, Hfile.
  specialize (IH a1). destruct (monitor_loop a1 rest) as [a2 anns]. simpl in *.
  assert (Hk1 : ts0 ⊆ known_tickers a1).
  { rewrite Hk. intros x Hx. apply elem_of_union. left. now apply Hk0. }
  apply IH; [exact Hk1|]. intros ts Hts.
  destruct Hfile as [Hf|[Hf|Hf]]; rewrite Hf in Hts.
  - now apply Hf0.
  - injection Hts as <-. rewrite <- Hk. exact Hk1.
  - discriminate Hts.
Qed.

Lemma file_survives (cycles : list (gset string * save_outcome)) :
  Forall (λ c, snd c ≠ write_failed) cycles →
  ∀ a, is_Some (state_file a) →
       is_Some (state_file (fst (monitor_loop a cycles))).
Proof.
  induction 1 as [|[cur ok] rest Hok _ IH]; intros a Ha; simpl; [exact Ha|].
  assert (H1 : is_Some (state_file (fst (check_for_new_tickers a cur ok)))).
  { destruct (decide (new_tickers a cur = ∅)) as [E|E].
    - now rewrite check_quiet.
    - rewrite check_loud by exact E. simpl in Hok.
      destruct ok; simpl; [eauto|exact Ha|contradiction]. }
  destruct (check_for_new_tickers a cur ok) as [a1 ann]. simpl in H1.
  specialize (IH a1 H1). now destruct (monitor_loop a1 rest) as [a2 anns].
Qed.

(** X5. From start-up on any state file and over any run of cycles, a
    state file that can be read never holds a ticker that is not in
    memory and holds every ticker the start-up file held.  As long as no
    save fails while writing, a file that existed at start-up is still
    readable at the end; a failed write is what can leave none. *)
Theorem state_file_grows (file : option (gset string))
    (cycles : list (gset string * save_outcome)) :
  (∀ ts, state_file (fst (monitor_loop (init file) cycles)) = Some ts →
         ts ⊆ known_tickers (fst (monitor_loop (init file) cycles)))
  ∧ (∀ ts0 ts, file = Some ts0 →
       state_file (fst (monitor_loop (init file) cycles)) = Some ts →
       ts0 ⊆ ts)
  ∧ (Forall (λ c, snd c ≠ write_failed) cycles →
     is_Some file →
     is_Some (state_file (fst (monitor_loop (init file) cycles)))).
Proof.
  split; [|split].
  - apply file_below_known. unfold init, load_state. simpl.
    destruct file as [ts0|]; simpl.
    + intros ts [= <-]. done.
    + intros ts H. discriminate H.
  - intros ts0 ts ->. apply file_above_start.
    + unfold init, load_state. simpl. done.
    + unfold init, load_state. simpl. intros ts' [= <-]. done.
  - intros Hok Hfile. apply file_survives; [exact Hok|].
    unfold init, load_state. simpl. destruct file; [simpl; eauto|].
    destruct Hfile as [? H]. discriminate H.
Qed.

Lemma state_file_grows_witness :
  is_Some (state_file
             (fst (monitor_loop (init (Some {[ "MSFT"%string ]}))
                     [(msft_aapl, open_failed); (msft_aapl, saved)]))).
Proof.
  destruct (state_file_grows (Some {[ "MSFT"%string ]})
              [(msft_aapl, open_failed); (msft_aapl, saved)]) as (_ & _ & H).
  apply H; [|eauto].
  repeat constructor; simpl; discriminate.
Defined.

Example failed_write_loses_the_file :
  state_file (fst (monitor_loop (init (Some {[ "MSFT"%string ]}))
                     [(msft_aapl, write_failed); (msft_aapl, saved)]))
  = None.
Proof. vm_compute. reflexivity. Qed.

End GainersFacts.

(** ** The indicator library *)

Module IndicatorFacts.
Import Indicators.

Lemma gain_nonneg (d : Q) : 0 <= gain d.
Proof.
  unfold gain. destruct (Qle_bool 0 d) eqn:E.
  - now apply Qle_bool_iff.
  - apply Qle_refl.
Qed.

Lemma loss_nonneg (d : Q) : 0 <= loss d.
Proof.
  unfold loss. destruct (Qle_bool 0 d) eqn:E.
  - apply Qle_refl.
  - assert (~ 0 <= d) by (rewrite <- Qle_bool_iff, E; discriminate). lra.
Qed.

Lemma loss_of_gain (d : Q) : 0 <= d -> loss d = 0.
Proof.
  intros H. unfold loss. apply Qle_bool_iff in H. now rewrite H.
Qed.

Lemma Qsum_nonneg (l : list Q) : Forall (fun x => 0 <= x) l -> 0 <= Qsum l.
Proof.
  induction 1 as [|x l Hx _ IH]; simpl; [apply Qle_refl|lra].
Qed.

Lemma Qsum_zero (l : list Q) : Forall (fun x => x = 0) l -> Qsum l == 0.
Proof.
  induction 1 as [|x l Hx _ IH]; simpl; [reflexivity|]. rewrite Hx, IH. lra.
Qed.

(** The formula stays within the scale on non-negative averages. *)
Lemma rsi_value_bounds (g l : Q) :
  0 <= g -> 0 <= l -> 0 <= rsi_value g l <= 100.
Proof.
  intros Hg Hl. unfold rsi_value.
  destruct (Qeq_bool l 0) eqn:E; [lra|].
  apply Qeq_bool_neq in E.
  assert (Hlpos : 0 < l).
  { apply Qle_lteq in Hl as [H|H]; [exact H|].
    exfalso. apply E. symmetry. exact H. }
  assert (Hrs : 0 <= g / l) by (apply Qle_shift_div_l; [exact Hlpos|lra]).
  assert (Ht : 0 < 1 + g / l) by lra.
  assert (Hlo : 0 <= 100 / (1 + g / l)) by (apply Qle_shift_div_l; [exact Ht|lra]).
  assert (Hhi : 100 / (1 + g / l) <= 100) by (apply Qle_shift_div_r; [exact Ht|lra]).
  lra.
Qed.

Lemma rsi_value_no_loss (g l : Q) : l == 0 -> rsi_value g l = 100.
Proof.
  intros H. unfold rsi_value. apply Qeq_bool_iff in H. now rewrite H.
Qed.

(** One smoothing step keeps an average non-negative. *)
Lemma smooth_nonneg (n avg x : Q) :
  1 <= n -> 0 <= avg -> 0 <= x -> 0 <= (avg * (n - 1) + x) / n.
Proof.
  intros Hn Havg Hx. apply Qle_shift_div_l; [lra|].
  assert (0 <= avg * (n - 1)) by (apply Qmult_le_0_compat; lra). lra.
Qed.

Lemma smooth_zero (n avg : Q) : avg == 0 -> (avg * (n - 1) + 0) / n == 0.
Proof.
  intros H. rewrite H. unfold Qdiv. ring.
Qed.

Lemma wilder_bounds (n : Q) (ds : list Q) :
  1 <= n -> forall g l, 0 <= g -> 0 <= l ->
  Forall (fun r => 0 <= r <= 100) (wilder n g l ds).
Proof.
  intros Hn. induction ds as [|d ds IH]; intros g l Hg Hl; simpl; constructor.
  - apply rsi_value_bounds; apply smooth_nonneg; auto using gain_nonneg, loss_nonneg.
  - apply IH; apply smooth_nonneg; auto using gain_nonneg, loss_nonneg.
Qed.

Lemma wilder_no_loss (n : Q) (ds : list Q) :
  Forall (fun d => 0 <= d) ds -> forall g l, l == 0 ->
  Forall (fun r => r = 100) (wilder n g l ds).
Proof.
  induction 1 as [|d ds Hd _ IH]; intros g l Hl; simpl; constructor.
  - apply rsi_value_no_loss. rewrite (loss_of_gain d Hd). now apply smooth_zero.
  - apply IH. rewrite (loss_of_gain d Hd). now apply smooth_zero.
Qed.

Lemma period_as_Q (period : nat) :
  (0 < period)%nat -> 1 <= inject_Z (Z.of_nat period).
Proof.
  intros H. change 1 with (inject_Z 1). rewrite <- Zle_Qle. lia.
Qed.

Lemma rsi_series_bounds (period : nat) (closes : list Q) :
  (0 < period)%nat -> Forall (fun r => 0 <= r <= 100) (rsi_series period closes).
Proof.
  intros Hp. pose proof (period_as_Q period Hp) as Hn.
  assert (Hg : 0 <= Qsum (map gain (firstn period (changes closes)))
                    / inject_Z (Z.of_nat period)).
  { apply Qle_shift_div_l; [lra|]. rewrite Qmult_0_l. apply Qsum_nonneg.
    apply Forall_forall. intros x Hx.
    apply list_elem_of_In, in_map_iff in Hx as (d & <- & _). apply gain_nonneg. }
  assert (Hl : 0 <= Qsum (map loss (firstn period (changes closes)))
                    / inject_Z (Z.of_nat period)).
  { apply Qle_shift_div_l; [lra|]. rewrite Qmult_0_l. apply Qsum_nonneg.
    apply Forall_forall. intros x Hx.
    apply list_elem_of_In, in_map_iff in Hx as (d & <- & _). apply loss_nonneg. }
  unfold rsi_series. constructor.
  - now apply rsi_value_bounds.
  - now apply wilder_bounds.
Qed.

Lemma rsi_series_no_loss (period : nat) (closes : list Q) :
  Forall (fun d => 0 <= d) (changes closes) ->
  Forall (fun r => r = 100) (rsi_series period closes).
Proof.
  intros Hup.
  assert (Hseed : Forall (fun d => 0 <= d) (firstn period (changes closes))).
  { now apply Forall_take. }
  assert (Hrest : Forall (fun d => 0 <= d) (skipn period (changes closes))).
  { now apply Forall_drop. }
  assert (Hl : Qsum (map loss (firstn period (changes closes)))
               / inject_Z (Z.of_nat period) == 0).
  { rewrite Qsum_zero; [unfold Qdiv; ring|].
    apply Forall_forall. intros x Hx.
    apply list_elem_of_In, in_map_iff in Hx as (d & <- & Hd).
    apply loss_of_gain. rewrite Forall_forall in Hseed. apply Hseed.
    now apply list_elem_of_In. }
  unfold rsi_series. constructor.
  - now apply rsi_value_no_loss.
  - now apply wilder_no_loss.
Qed.

(** C7. On a close series at least as long as the period, the RSI entry
    point does not fail and returns a non-empty trailing series; every
    value of it lies between 0 and 100, and every value is exactly 100
    when no change of the series is a loss. *)
Theorem rsi_within_scale (period : nat) (closes : list Q) :
  (0 < period)%nat -> (period <= length closes)%nat ->
  exists series,
    RSI period closes = Ok series
    /\ series <> []
    /\ Forall (fun r => 0 <= r <= 100) series
    /\ (Forall (fun d => 0 <= d) (changes closes) ->
        Forall (fun r => r = 100) series).
Proof.
  intros Hp Hlen. exists (rsi_series period closes). split; [|split; [|split]].
  - unfold RSI. destruct (length closes <? period)%nat eqn:E; [|reflexivity].
    apply Nat.ltb_lt in E. lia.
  - unfold rsi_series. discriminate.
  - now apply rsi_series_bounds.
  - apply rsi_series_no_loss.
Qed.

Lemma rsi_within_scale_witness :
  exists series,
    RSI 14 rising = Ok series /\ Forall (fun r => r = 100) series.
Proof.
  assert (Hp : (0 < 14)%nat) by lia.
  assert (Hlen : (14 <= length rising)%nat) by (simpl; lia).
  destruct (rsi_within_scale 14 rising Hp Hlen) as (series & Hs & _ & _ & Hup).
  exists series. split; [exact Hs|]. apply Hup.
  repeat constructor; apply Qle_bool_iff; reflexivity.
Defined.

Example rsi_choppy :
  option_map (map Qred)
    (match RSI 14 choppy with Ok s => Some s | Fail _ => None end)
  = Some [ 1300 # 29; 16900 # 419 ].
Proof. vm_compute. reflexivity. Qed.

End IndicatorFacts.

(** ** The portfolio manager *)

Module PortfolioFacts.
Import Portfolio.

(** *** The sell loop *)

Lemma checkSells_step (currentPrices : gmap string Q) (i : nat)
    (newPortfolio : list Position) (pos : Position) :
  newPortfolio !! i = Some pos ->
  checkSells currentPrices (S i) newPortfolio
  = if sold currentPrices pos
    then checkSells currentPrices i (delete i newPortfolio)
    else checkSells currentPrices i newPortfolio.
Proof.
  intros Hpos. simpl. rewrite Hpos. unfold sold.
  destruct (currentPrices !! symbol pos) as [p|]; [|reflexivity].
  destruct (truthy (Some p)); simpl; [|reflexivity].
  destruct (lossCut p pos); reflexivity.
Qed.

(** The loop, run from index [k - 1] down to 0, filters the first [k]
    entries and keeps the others. *)
Lemma checkSells_prefix (currentPrices : gmap string Q) (k : nat) :
  forall newPortfolio : list Position,
  (k <= length newPortfolio)%nat ->
  checkSells currentPrices k newPortfolio
  = Returns (List.filter (fun pos => negb (sold currentPrices pos))
               (take k newPortfolio) ++ drop k newPortfolio).
Proof.
  induction k as [|i IH]; intros pf Hk.
  - simpl. now rewrite drop_0.
  - destruct (lookup_lt_is_Some_2 pf i) as [pos Hpos]; [lia|].
    rewrite (checkSells_step _ _ _ _ Hpos).
    rewrite (take_S_r _ _ _ Hpos), List.filter_app. simpl.
    destruct (sold currentPrices pos) eqn:Hs; simpl.
    + rewrite IH by (rewrite length_delete by eauto; lia).
      rewrite app_nil_r. f_equal.
      rewrite delete_take_drop.
      rewrite take_app_le by (rewrite length_take; lia).
      rewrite take_take, Nat.min_id.
      rewrite drop_app_length' by (rewrite length_take; lia).
      reflexivity.
    + rewrite IH by lia. rewrite <- app_assoc. simpl.
      now rewrite (drop_S _ _ _ Hpos).
Qed.

(** The sell loop of a scan never throws and is a filter. *)
Lemma checkSells_filter (currentPrices : gmap string Q)
    (portfolio : list Position) :
  checkSells currentPrices (length portfolio) portfolio
  = Returns (List.filter (fun pos => negb (sold currentPrices pos)) portfolio).
Proof.
  rewrite checkSells_prefix by lia.
  now rewrite firstn_all, drop_all, app_nil_r.
Qed.

Lemma threshold_value : Double.sub BUY_AMOUNT LOSS_THRESHOLD = 1800.
Proof. vm_compute. reflexivity. Qed.

Lemma sold_iff (currentPrices : gmap string Q) (pos : Position) (p : Q) :
  currentPrices !! symbol pos = Some p -> ~ p == 0 ->
  (sold currentPrices pos = true <-> Double.mul p (shares pos) <= 1800).
Proof.
  intros Hp Hnz. unfold sold. rewrite Hp. unfold truthy, lossCut.
  destruct (Qeq_bool p 0) eqn:E; [apply Qeq_bool_iff in E; contradiction|].
  simpl. rewrite Qle_bool_iff, threshold_value. reflexivity.
Qed.

Lemma filter_sublist {A : Type} (f : A -> bool) (l : list A) :
  sublist (List.filter f l) l.
Proof.
  induction l as [|x l IH]; simpl; [constructor|].
  destruct (f x); [now apply sublist_skip|now apply sublist_cons].
Qed.

(** X11. The sell loop, which walks the array from its last index down
    and splices entries out as it goes, never reads outside the array: it
    always returns, and what it returns is the portfolio with the sold
    positions taken out and the others left in their order.  A position
    is taken out exactly when its symbol has a non-zero price in the
    table and the double product of that price and its share count is at
    most 1800. *)
Theorem sell_loop_is_filter (currentPrices : gmap string Q)
    (portfolio : list Position) :
  exists newPortfolio,
    checkSells currentPrices (length portfolio) portfolio = Returns newPortfolio
    /\ sublist newPortfolio portfolio
    /\ forall pos,
         In pos newPortfolio
         <-> In pos portfolio
             /\ ~ (exists p, currentPrices !! symbol pos = Some p
                             /\ ~ p == 0
                             /\ Double.mul p (shares pos) <= 1800).
Proof.
  exists (List.filter (fun pos => negb (sold currentPrices pos)) portfolio).
  split; [apply checkSells_filter|]. split; [apply filter_sublist|].
  intros pos. rewrite filter_In, negb_true_iff.
  assert (Hs : sold currentPrices pos = true
               <-> exists p, currentPrices !! symbol pos = Some p
                             /\ ~ p == 0
                             /\ Double.mul p (shares pos) <= 1800).
  { split.
    - intros H. unfold sold in H.
      destruct (currentPrices !! symbol pos) as [p|] eqn:Hp; [|discriminate].
      apply andb_prop in H as [Ht Hc]. exists p. split; [reflexivity|].
      assert (Hnz : ~ p == 0).
      { intros E. unfold truthy in Ht. apply Qeq_bool_iff in E.
        rewrite E in Ht. discriminate. }
      split; [exact Hnz|]. apply (sold_iff currentPrices pos p Hp Hnz).
      unfold sold. rewrite Hp, Ht, Hc. reflexivity.
    - intros (p & Hp & Hnz & Hle). now apply (sold_iff currentPrices pos p Hp Hnz). }
  rewrite <- Hs. destruct (sold currentPrices pos); split; intros [H1 H2];
    split; auto; try discriminate. exfalso. apply H2. reflexivity.
Qed.

(** The bound of the sell loop in doubles.  A position bought at 70 and
    quoted 63 is worth 1800 and is sold; one bought at 120 and quoted 108
    is worth 1800 as well, but the product of 108 and the rounded share
    count is just above 1800 and the position is kept. *)
Example sell_loop_at_the_bound :
  checkSells (quoted 63) 1 [bought_at 70] = Returns []
  /\ checkSells (quoted 108) 1 [bought_at 120] = Returns [bought_at 120].
Proof. split; vm_compute; reflexivity. Qed.

(** *** The buy loop *)

Ltac case_truthy :=
  match goal with
  | |- context [negb (Qeq_bool ?q 0)] => destruct (negb (Qeq_bool q 0)) eqn:?
  end.

Section Library.

Variable RSI_calculate : nat -> list Q -> list Q.
Variable BollingerBands_calculate : nat -> Q -> list Q -> list Indicators.bands.
Variable getHistorical : string -> list PriceBar.
Variable getQuote : string -> option Q.
Variable sp500 : gset string.
Variable now : Z.

#[local] Abbreviation checkBuyCondition :=
  (Portfolio.checkBuyCondition RSI_calculate BollingerBands_calculate).
#[local] Abbreviation checkBuys :=
  (Portfolio.checkBuys RSI_calculate BollingerBands_calculate
     getHistorical getQuote now).
#[local] Abbreviation crossing := (Portfolio.crossing RSI_calculate).
#[local] Abbreviation belowBand :=
  (Portfolio.belowBand BollingerBands_calculate).

Lemma short_history_false (history : list PriceBar) :
  (length history < 50)%nat -> checkBuyCondition history = Returns false.
Proof.
  intros H. unfold Portfolio.checkBuyCondition.
  apply Nat.ltb_lt in H. now rewrite H.
Qed.

Lemma checkBuys_skip (s : string) (portfolio : list Position)
    (pre post : list string) :
  (length (getHistorical s) < 50)%nat ->
  forall st, checkBuys portfolio (pre ++ s :: post) st
             = checkBuys portfolio (pre ++ post) st.
Proof.
  intros Hshort. induction pre as [|x pre IH]; intros st; simpl.
  - rewrite (short_history_false _ Hshort).
    now destruct (existsb _ portfolio).
  - destruct (existsb _ portfolio); [apply IH|].
    destruct (checkBuyCondition (getHistorical x)) as [[|]|]; [|apply IH|reflexivity].
    destruct (getQuote x) as [q|]; [|apply IH].
    case_truthy; apply IH.
Qed.

(** The buy loop only appends, and what it appends are positions on
    symbols of the list that the bound [portfolio] does not hold. *)
Lemma checkBuys_appends (portfolio : list Position) (todo : list string) :
  forall st, exists bought,
    fst (checkBuys portfolio todo st) = st ++ bought
    /\ (forall q, In q bought ->
          In (symbol q) todo
          /\ existsb (fun p => String.eqb (symbol p) (symbol q)) portfolio = false)
    /\ (NoDup todo -> NoDup (map symbol bought)).
Proof.
  induction todo as [|s rest IH]; intros st; simpl.
  - exists []. rewrite app_nil_r.
    split; [reflexivity|split; [intros q []|intros _; constructor]].
  - assert (Hskip : forall st0, exists bought,
               fst (checkBuys portfolio rest st0) = st0 ++ bought
               /\ (forall q, In q bought ->
                     (s = symbol q \/ In (symbol q) rest)
                     /\ existsb (fun p => String.eqb (symbol p) (symbol q)) portfolio = false)
               /\ (NoDup (s :: rest) -> NoDup (map symbol bought))).
    { intros st0. destruct (IH st0) as (b & Hb & Hq & Hnd). exists b.
      split; [exact Hb|]. split.
      - intros q Hin. destruct (Hq q Hin). tauto.
      - intros Hn. apply Hnd. now apply NoDup_cons_1_2 in Hn. }
    destruct (existsb (fun p => String.eqb (symbol p) s) portfolio) eqn:Hheld;
      [apply Hskip|].
    destruct (checkBuyCondition (getHistorical s)) as [[|]|];
      [|apply Hskip|].
    + destruct (getQuote s) as [q|]; [|apply Hskip].
      case_truthy; [|apply Hskip].
      match goal with |- context [st ++ [?np]] => set (newPos := np) end.
      destruct (IH (st ++ [newPos])) as (b & Hb & Hq & Hnd).
      exists (newPos :: b). split; [|split].
      * rewrite Hb, <- app_assoc. reflexivity.
      * intros q0 [<-|Hin]; [simpl; tauto|].
        destruct (Hq q0 Hin). tauto.
      * intros Hn. simpl. inversion Hn as [|? ? Hnotin Hrest]; subst.
        apply NoDup_cons_2; [|now apply Hnd].
        intros Hin. apply list_elem_of_In, in_map_iff in Hin as (q0 & Hs & Hq0).
        apply Hnotin. apply list_elem_of_In. rewrite <- Hs. now apply Hq.
    + exists []. simpl. rewrite app_nil_r.
      split; [reflexivity|split; [intros q []|intros _; constructor]].
Qed.

Lemma scan_skip (s : string) (portfolio : list Position)
    (currentPrices : gmap string Q) (pre post : list string) :
  (length (getHistorical s) < 50)%nat ->
  scanAndTrade RSI_calculate BollingerBands_calculate getHistorical getQuote
    (pre ++ s :: post) sp500 now portfolio currentPrices
  = scanAndTrade RSI_calculate BollingerBands_calculate getHistorical getQuote
      (pre ++ post) sp500 now portfolio currentPrices.
Proof.
  intros Hshort. unfold scanAndTrade. rewrite checkSells_filter.
  rewrite !filter_app, filter_cons.
  destruct (decide (s ∈ sp500)); [|reflexivity].
  now rewrite (checkBuys_skip s portfolio _ _ Hshort).
Qed.

(** C8. A symbol whose history has fewer than the fifty bars that the
    indicator window needs is given up before any indicator is computed:
    [checkBuyCondition] returns [false] and does not throw, the buy loop
    goes on exactly as if the symbol were not in the list, and so does the
    whole scan: same positions, same prices, same completion. *)
Theorem short_history_skipped (s : string) :
  (length (getHistorical s) < 50)%nat ->
  checkBuyCondition (getHistorical s) = Returns false
  /\ (forall portfolio pre post st,
        checkBuys portfolio (pre ++ s :: post) st
        = checkBuys portfolio (pre ++ post) st)
  /\ (forall portfolio currentPrices pre post,
        scanAndTrade RSI_calculate BollingerBands_calculate getHistorical
          getQuote (pre ++ s :: post) sp500 now portfolio currentPrices
        = scanAndTrade RSI_calculate BollingerBands_calculate getHistorical
            getQuote (pre ++ post) sp500 now portfolio currentPrices).
Proof.
  intros Hshort. split; [|split].
  - now apply short_history_false.
  - intros portfolio pre post st. now apply checkBuys_skip.
  - intros portfolio currentPrices pre post. now apply scan_skip.
Qed.

(** *** The entry signal *)

Lemma Qlt_bool_iff (x y : Q) : Qlt_bool x y = true <-> x < y.
Proof.
  unfold Qlt_bool. rewrite negb_true_iff. split.
  - intros H. apply Qnot_le_lt. intros Hle.
    apply Qle_bool_iff in Hle. congruence.
  - intros H. destruct (Qle_bool y x) eqn:E; [|reflexivity].
    apply Qle_bool_iff in E. lra.
Qed.

Lemma rsiDropped_iff (a b : option Q) :
  rsiDropped a b = true
  <-> exists r p, a = Some r /\ b = Some p /\ r < 30 /\ 30 <= p.
Proof.
  unfold rsiDropped, js_lt, js_ge. split.
  - intros H. apply andb_prop in H as [H1 H2].
    destruct a as [r|]; [|discriminate]. destruct b as [p|]; [|discriminate].
    exists r, p. rewrite Qlt_bool_iff in H1. rewrite Qle_bool_iff in H2. auto.
  - intros (r & p & -> & -> & Hr & Hp).
    apply andb_true_intro. rewrite Qlt_bool_iff, Qle_bool_iff. auto.
Qed.

Lemma bbOutLower_iff (c : option Q) (b : Indicators.bands) :
  bbOutLower c b = true <-> exists x, c = Some x /\ x < Indicators.lower b.
Proof.
  unfold bbOutLower, js_lt. split.
  - destruct c as [x|]; [|discriminate]. rewrite Qlt_bool_iff. eauto.
  - intros (x & -> & Hx). now apply Qlt_bool_iff.
Qed.

Lemma signal_iff (history : list PriceBar) :
  (50 <= length history)%nat ->
  (checkBuyCondition history = Returns true
   <-> crossing history = true /\ belowBand history).
Proof.
  intros Hlen. unfold Portfolio.checkBuyCondition, Portfolio.crossing, Portfolio.belowBand.
  destruct (length history <? 50)%nat eqn:E; [apply Nat.ltb_lt in E; lia|].
  destruct (lastBb BollingerBands_calculate history) as [b|].
  - split.
    + intros [= H]. apply andb_prop in H as [H1 H2]. split; [exact H1|].
      apply bbOutLower_iff in H2 as (c & Hc & Hlt). eauto.
    + intros [H1 (c & b' & Hc & [= <-] & Hlt)]. f_equal.
      apply andb_true_intro. split; [exact H1|].
      apply bbOutLower_iff. eauto.
  - split; [discriminate|]. intros [_ (c & b & _ & Hb & _)]. discriminate.
Qed.

Lemma signal_needs_crossing (history : list PriceBar) :
  checkBuyCondition history = Returns true -> crossing history = true.
Proof.
  intros H. destruct (le_lt_dec 50 (length history)) as [Hlen|Hlen].
  - now apply signal_iff in H.
  - rewrite short_history_false in H by exact Hlen. discriminate.
Qed.

(** C1, as the code has it. On a cycle with at least fifty bars of
    history the signal fires exactly when, on the indicator arrays that
    the cycle computes from its last fifty closes, the last RSI is below
    30, the RSI before it is at or above 30 and the last close is below
    the last lower band.  It is an edge test inside the arrays of one
    cycle: it does not fire when the RSI before the last is already
    below 30, nor when the last RSI is at or above 30, and when the pair
    shows the fall through 30 it fires exactly when the close is below
    the band. *)
Theorem entry_signal_edge_trigger (history : list PriceBar) :
  (50 <= length history)%nat ->
  (checkBuyCondition history = Returns true
   <-> exists r p c b,
         lastRsi RSI_calculate history = Some r
         /\ prevRsi RSI_calculate history = Some p
         /\ lastClose history = Some c
         /\ lastBb BollingerBands_calculate history = Some b
         /\ r < 30 /\ 30 <= p /\ c < Indicators.lower b)
  /\ (forall p, prevRsi RSI_calculate history = Some p -> p < 30 ->
        checkBuyCondition history <> Returns true)
  /\ (forall r, lastRsi RSI_calculate history = Some r -> 30 <= r ->
        checkBuyCondition history <> Returns true)
  /\ (crossing history = true ->
      (checkBuyCondition history = Returns true <-> belowBand history)).
Proof.
  intros Hlen. split; [|split; [|split]].
  - rewrite (signal_iff history Hlen).
    unfold Portfolio.crossing, Portfolio.belowBand. rewrite rsiDropped_iff. split.
    + intros [(r & p & Hr & Hp & Hlt & Hge) (c & b & Hc & Hb & Hband)].
      exists r, p, c, b. tauto.
    + intros (r & p & c & b & Hr & Hp & Hc & Hb & Hlt & Hge & Hband).
      split; [exists r, p|exists c, b]; tauto.
  - intros p Hp Hlow Hfire.
    apply signal_needs_crossing in Hfire. unfold Portfolio.crossing in Hfire.
    apply rsiDropped_iff in Hfire as (r & p' & _ & Hp' & _ & Hge).
    rewrite Hp in Hp'. injection Hp' as <-. lra.
  - intros r Hr Hhigh Hfire.
    apply signal_needs_crossing in Hfire. unfold Portfolio.crossing in Hfire.
    apply rsiDropped_iff in Hfire as (r' & p & Hr' & _ & Hlt & _).
    rewrite Hr in Hr'. injection Hr' as <-. lra.
  - intros Hcross. rewrite (signal_iff history Hlen). tauto.
Qed.

Lemma not_held_not_in (portfolio : list Position) (s : string) :
  existsb (fun p => String.eqb (symbol p) s) portfolio = false ->
  ~ In s (map symbol portfolio).
Proof.
  intros H Hin. apply in_map_iff in Hin as (p & Hp & Hin).
  assert (existsb (fun p => String.eqb (symbol p) s) portfolio = true).
  { apply existsb_exists. exists p. split; [exact Hin|].
    rewrite Hp. apply String.eqb_refl. }
  congruence.
Qed.

(** *** The price table *)

#[local] Abbreviation quotesOf :=
  (fold_left
     (fun (newPrices : gmap string Q) (s : string) =>
        match getQuote s with
        | Some price => if truthy (Some price)
                        then <[ s := price ]> newPrices
                        else newPrices
        | None => newPrices
        end)).

(** A table agrees with the quote service when each of its entries is
    the non-zero quote of its symbol. *)
#[local] Abbreviation agrees :=
  (fun acc : gmap string Q =>
     forall s p, acc !! s = Some p -> getQuote s = Some p /\ ~ p == 0).

Lemma truthy_nonzero (p : Q) : truthy (Some p) = true <-> ~ p == 0.
Proof.
  unfold truthy. rewrite negb_true_iff. split.
  - intros H E. apply Qeq_bool_iff in E. congruence.
  - intros H. destruct (Qeq_bool p 0) eqn:E; [|reflexivity].
    apply Qeq_bool_iff in E. contradiction.
Qed.

Ltac fold_truthy :=
  repeat match goal with
         | |- context [negb (Qeq_bool ?q 0)] =>
             change (negb (Qeq_bool q 0)) with (truthy (Some q))
         | H : context [negb (Qeq_bool ?q 0)] |- _ =>
             change (negb (Qeq_bool q 0)) with (truthy (Some q)) in H
         end.

Lemma quotesOf_agrees (l : list string) :
  forall acc, agrees acc -> agrees (quotesOf l acc).
Proof.
  induction l as [|x l IH]; intros acc Hacc; simpl; [exact Hacc|].
  apply IH. destruct (getQuote x) as [q|] eqn:Hq; [|exact Hacc].
  fold_truthy. destruct (truthy (Some q)) eqn:Ht; [|exact Hacc].
  intros s p. rewrite lookup_insert. destruct (decide (x = s)) as [<-|Hne].
  - intros [= <-]. split; [exact Hq|]. now apply truthy_nonzero.
  - apply Hacc.
Qed.

Lemma quotesOf_keeps (l : list string) :
  forall acc s p, agrees acc -> acc !! s = Some p -> quotesOf l acc !! s = Some p.
Proof.
  induction l as [|x l IH]; intros acc s p Hacc Hs; simpl; [exact Hs|].
  assert (Hstep : agrees (quotesOf [x] acc)) by now apply quotesOf_agrees.
  simpl in Hstep. apply IH; [exact Hstep|].
  destruct (getQuote x) as [q|] eqn:Hq; [|exact Hs].
  fold_truthy. destruct (truthy (Some q)) eqn:Ht; [|exact Hs].
  rewrite lookup_insert. destruct (decide (x = s)) as [<-|Hne]; [|exact Hs].
  destruct (Hacc x p Hs) as [Hp _]. congruence.
Qed.

Lemma quotesOf_source (l : list string) :
  forall acc s p, quotesOf l acc !! s = Some p -> acc !! s = Some p \/ In s l.
Proof.
  induction l as [|x l IH]; intros acc s p; simpl; [auto|].
  intros H. apply IH in H as [H|H]; [|auto].
  destruct (getQuote x) as [q|]; [|auto].
  fold_truthy. destruct (truthy (Some q)); [|auto].
  rewrite lookup_insert in H. destruct (decide (x = s)) as [<-|Hne]; auto.
Qed.

Lemma quotesOf_finds (l : list string) :
  forall acc s p, agrees acc -> In s l -> getQuote s = Some p -> ~ p == 0 ->
                  quotesOf l acc !! s = Some p.
Proof.
  induction l as [|x l IH]; intros acc s p Hacc Hin Hq Hnz; [destruct Hin|].
  assert (Hstep : agrees (quotesOf [x] acc)) by now apply quotesOf_agrees.
  simpl in Hstep |- *. destruct Hin as [->|Hin]; [|now apply IH].
  apply quotesOf_keeps; [exact Hstep|].
  rewrite Hq. fold_truthy. apply truthy_nonzero in Hnz. rewrite Hnz.
  apply lookup_insert_eq.
Qed.

(** X6. [updateCurrentPrices] sets no price table when the portfolio is
    empty; otherwise the table it sets has an entry for a symbol exactly
    when the symbol is held and its quote is a non-zero number, and the
    entry is that quote.  Failed, null and zero quotes leave no entry. *)
Theorem updateCurrentPrices_table (portfolio : list Position) :
  (portfolio = [] -> updateCurrentPrices getQuote portfolio = None)
  /\ (portfolio <> [] ->
      exists newPrices,
        updateCurrentPrices getQuote portfolio = Some newPrices
        /\ forall s p,
             newPrices !! s = Some p
             <-> In s (map symbol portfolio) /\ getQuote s = Some p /\ ~ p == 0).
Proof.
  split; [intros ->; reflexivity|]. intros Hne.
  destruct portfolio as [|pos0 rest]; [contradiction|].
  eexists. split; [reflexivity|]. intros s p.
  assert (Hempty : agrees (∅ : gmap string Q)).
  { intros s0 p0 H. rewrite lookup_empty in H. discriminate. }
  split.
  - intros H. pose proof (quotesOf_agrees _ _ Hempty s p H) as [Hq Hnz].
    apply quotesOf_source in H as [H|H]; [rewrite lookup_empty in H; discriminate|].
    auto.
  - intros (Hin & Hq & Hnz). now apply quotesOf_finds.
Qed.

(** *** The window of the buy condition *)

Lemma slice_last_app {A : Type} (n : nat) (old recent : list A) :
  (n <= length recent)%nat ->
  slice_last n (old ++ recent) = slice_last n recent.
Proof.
  intros H. unfold slice_last. rewrite length_app.
  replace (length old + length recent - n)%nat
    with (length old + (length recent - n))%nat by lia.
  rewrite drop_app_add'; reflexivity.
Qed.

Lemma slice_last_length {A : Type} (n : nat) (l : list A) :
  (n <= length l)%nat -> length (slice_last n l) = n.
Proof.
  intros H. unfold slice_last. rewrite length_skipn. lia.
Qed.

Lemma same_window_same_signal (h1 h2 : list PriceBar) :
  (50 <= length h1)%nat -> (50 <= length h2)%nat ->
  closes h1 = closes h2 -> checkBuyCondition h1 = checkBuyCondition h2.
Proof.
  intros H1 H2 Hc. unfold Portfolio.checkBuyCondition.
  destruct (length h1 <? 50)%nat eqn:E1; [apply Nat.ltb_lt in E1; lia|].
  destruct (length h2 <? 50)%nat eqn:E2; [apply Nat.ltb_lt in E2; lia|].
  unfold lastBb, lastRsi, prevRsi, lastClose. rewrite Hc. reflexivity.
Qed.

(** X7. With at least fifty bars the buy condition looks at exactly
    fifty closes, the last ones: bars older than the last fifty, and
    every field of a bar other than its close, have no influence on the
    result. *)
Theorem only_last_fifty_closes (old recent other : list PriceBar) :
  (50 <= length recent)%nat ->
  length (closes recent) = 50%nat
  /\ checkBuyCondition (old ++ recent) = checkBuyCondition recent
  /\ (map close other = map close recent ->
      checkBuyCondition other = checkBuyCondition recent).
Proof.
  intros Hlen. split; [|split].
  - unfold closes. apply slice_last_length. now rewrite length_map.
  - apply same_window_same_signal; [rewrite length_app; lia|exact Hlen|].
    unfold closes. rewrite map_app. apply slice_last_app. now rewrite length_map.
  - intros Hsame. apply same_window_same_signal; [|exact Hlen|].
    + rewrite <- (length_map close other), Hsame, length_map. exact Hlen.
    + unfold closes. now rewrite Hsame.
Qed.

(** *** What is bought *)

(** The record that line 161 builds for a symbol and its quote. *)
#[local] Abbreviation entry_for :=
  (fun (s : string) (currPrice : Q) =>
     {| symbol := s; buyPrice := currPrice;
        shares := Double.div BUY_AMOUNT currPrice;
        buyValue := BUY_AMOUNT; buyTime := now |}).

Lemma checkBuys_bought (portfolio : list Position) (todo : list string) :
  forall st, exists bought,
    fst (checkBuys portfolio todo st) = st ++ bought
    /\ forall q, In q bought ->
         exists p, q = entry_for (symbol q) p
                   /\ getQuote (symbol q) = Some p /\ ~ p == 0
                   /\ checkBuyCondition (getHistorical (symbol q)) = Returns true.
Proof.
  induction todo as [|s rest IH]; intros st; simpl.
  - exists []. rewrite app_nil_r. split; [reflexivity|intros q []].
  - destruct (existsb (fun p => String.eqb (symbol p) s) portfolio); [apply IH|].
    destruct (checkBuyCondition (getHistorical s)) as [[|]|] eqn:Hsig; [|apply IH|].
    + destruct (getQuote s) as [p|] eqn:Hq; [|apply IH].
      destruct (negb (Qeq_bool p 0)) eqn:Ht; [|apply IH].
      destruct (IH (st ++ [entry_for s p])) as (b & Hb & Hall).
      exists (entry_for s p :: b). split.
      * rewrite Hb, <- app_assoc. reflexivity.
      * intros q [<-|Hin]; [|now apply Hall].
        exists p. simpl. split; [reflexivity|]. split; [exact Hq|].
        split; [|exact Hsig]. now apply truthy_nonzero.
    + exists []. simpl. rewrite app_nil_r. split; [reflexivity|intros q []].
Qed.

(** X8. The buy loop leaves every position it was given in place and
    only appends.  Each position it appends is on a symbol whose buy
    condition held and whose quote was a non-zero number: it is bought at
    that quote, its recorded value is [BUY_AMOUNT] whatever the quote,
    its share count is the double quotient of 2000 by the quote, and its
    time is the time of the scan. *)
Theorem bought_positions_sized (portfolio : list Position)
    (todo : list string) (st : list Position) :
  exists bought,
    fst (checkBuys portfolio todo st) = st ++ bought
    /\ forall q, In q bought ->
         checkBuyCondition (getHistorical (symbol q)) = Returns true
         /\ getQuote (symbol q) = Some (buyPrice q)
         /\ ~ buyPrice q == 0
         /\ buyValue q = BUY_AMOUNT
         /\ shares q = Double.div 2000 (buyPrice q)
         /\ buyTime q = now.
Proof.
  destruct (checkBuys_bought portfolio todo st) as (bought & Hb & Hall).
  exists bought. split; [exact Hb|]. intros q Hin.
  destruct (Hall q Hin) as (p & Hq & Hquote & Hnz & Hsig).
  pose proof (f_equal buyPrice Hq) as Hprice.
  pose proof (f_equal shares Hq) as Hshares.
  pose proof (f_equal buyValue Hq) as Hvalue.
  pose proof (f_equal buyTime Hq) as Htime.
  simpl in Hprice, Hshares, Hvalue, Htime.
  rewrite Hprice, Hshares, Hvalue, Htime.
  split; [exact Hsig|]. split; [exact Hquote|]. split; [exact Hnz|].
  split; [reflexivity|]. split; reflexivity.
Qed.

(** A scan always sets the portfolio, to the positions that the sell
    loop kept, in their order, followed by the positions bought. *)
Lemma scan_kept_then_bought (getTrending : list string)
    (portfolio : list Position) (currentPrices : gmap string Q) :
  exists bought,
    portfolioState
      (scanAndTrade RSI_calculate BollingerBands_calculate getHistorical
         getQuote getTrending sp500 now portfolio currentPrices)
    = Some (List.filter (fun pos => negb (sold currentPrices pos)) portfolio
            ++ bought)
    /\ forall q, In q bought ->
         In (symbol q) getTrending
         /\ symbol q ∈ sp500
         /\ getQuote (symbol q) = Some (buyPrice q)
         /\ buyTime q = now
         /\ checkBuyCondition (getHistorical (symbol q)) = Returns true.
Proof.
  unfold scanAndTrade. rewrite checkSells_filter.
  set (kept := List.filter _ portfolio).
  set (todo := filter _ getTrending).
  destruct (checkBuys_appends portfolio todo kept) as (bought & Hb & Hq & _).
  destruct (checkBuys_bought portfolio todo kept) as (bought' & Hb' & Hall).
  assert (bought' = bought) as ->.
  { rewrite Hb in Hb'. now apply app_inv_head in Hb'. }
  destruct (Portfolio.checkBuys _ _ _ _ _ portfolio todo kept) as [st fin].
  simpl in Hb. subst st. exists bought. split; [reflexivity|].
  intros q Hin. destruct (Hq q Hin) as [Htodo _].
  subst todo. apply list_elem_of_In, list_elem_of_filter in Htodo as [Hsp Htr].
  destruct (Hall q Hin) as (p & Hrec & Hquote & _ & Hsig).
  pose proof (f_equal buyPrice Hrec) as Hprice.
  pose proof (f_equal buyTime Hrec) as Htime.
  simpl in Hprice, Htime. rewrite Hprice, Htime.
  split; [now apply list_elem_of_In|]. split; [exact Hsp|].
  split; [exact Hquote|]. split; [reflexivity|exact Hsig].
Qed.

(** *** Duplicate entries *)

(** X10. When the trending list names no symbol twice, a scan started
    from a portfolio with distinct symbols leaves a portfolio with
    distinct symbols: what was held is kept or sold, untouched, and
    nothing is bought on a held symbol. *)
Lemma scan_symbols_distinct (getTrending : list string)
    (portfolio : list Position) (currentPrices : gmap string Q)
    (st : list Position) :
  NoDup (map symbol portfolio) -> NoDup getTrending ->
  portfolioState
    (scanAndTrade RSI_calculate BollingerBands_calculate getHistorical
       getQuote getTrending sp500 now portfolio currentPrices) = Some st ->
  NoDup (map symbol st).
Proof.
  intros Hpf Htr. unfold scanAndTrade. rewrite checkSells_filter.
  set (kept := List.filter _ portfolio).
  set (todo := filter _ getTrending).
  destruct (checkBuys_appends portfolio todo kept) as (bought & Hb & Hq & Hnd).
  destruct (Portfolio.checkBuys _ _ _ _ _ portfolio todo kept) as [st' fin].
  simpl in Hb. subst st'. simpl. intros [= <-].
  rewrite map_app. apply NoDup_app. split; [|split].
  - clear -Hpf. subst kept. induction portfolio as [|p pf IH]; simpl; [constructor|].
    inversion Hpf as [|? ? Hnotin Hrest]; subst.
    destruct (negb (sold currentPrices p)); simpl; [|now apply IH].
    apply NoDup_cons_2; [|now apply IH].
    intros Hin. apply Hnotin. apply list_elem_of_In. apply list_elem_of_In in Hin.
    apply in_map_iff in Hin as (q & Hs & Hin). apply filter_In in Hin as [Hin _].
    rewrite <- Hs. now apply in_map.
  - intros x Hx Hx'. apply list_elem_of_In in Hx, Hx'.
    apply in_map_iff in Hx as (p & Hp & Hin). apply filter_In in Hin as [Hin _].
    apply in_map_iff in Hx' as (q & Hq' & Hinq). destruct (Hq q Hinq) as [_ Hnot].
    apply (not_held_not_in _ _ Hnot). rewrite Hq', <- Hp. now apply in_map.
  - apply Hnd. now apply NoDup_filter.
Qed.

End Library.

(** *** The timer *)

Section TimerFacts.

Variable RSI_calculate : nat -> list Q -> list Q.
Variable BollingerBands_calculate : nat -> Q -> list Q -> list Indicators.bands.
Variable sp500 : gset string.

#[local] Abbreviation timerScan :=
  (Portfolio.timerScan RSI_calculate BollingerBands_calculate sp500).
#[local] Abbreviation afterTick :=
  (Portfolio.afterTick RSI_calculate BollingerBands_calculate sp500).
#[local] Abbreviation runTimer :=
  (Portfolio.runTimer RSI_calculate BollingerBands_calculate sp500).

Lemma timerScan_sets (t : tick) :
  exists bought, portfolioState (timerScan t) = Some bought.
Proof.
  unfold Portfolio.timerScan.
  destruct (scan_kept_then_bought RSI_calculate BollingerBands_calculate
              (history_at t) (quote_at t) sp500 (time_at t) (trending_at t) [] ∅)
    as (bought & Hst & _).
  exists bought. exact Hst.
Qed.

Lemma afterTick_any (state : list Position) (t : tick) :
  afterTick state t = afterTick [] t.
Proof.
  unfold Portfolio.afterTick. destruct (timerScan_sets t) as (bought & ->).
  reflexivity.
Qed.

(** X9. Every firing of the timer runs the scan of the render in which
    the index arrived, and in that scan the portfolio and the price table
    are the empty initial ones.  So a firing sets no price table, and the
    portfolio state after it does not depend on the state before it: it
    holds the positions bought by this firing and nothing else, each on a
    symbol that trends and is in the index, whose buy condition held, at
    the quote and the time of this firing.  After a run of firings the
    portfolio is that of the last firing alone. *)
Theorem timer_scan_replaces_portfolio (state : list Position) (t : tick) :
  newPrices (timerScan t) = None
  /\ afterTick state t = afterTick [] t
  /\ (forall q, In q (afterTick state t) ->
        In (symbol q) (trending_at t)
        /\ symbol q ∈ sp500
        /\ quote_at t (symbol q) = Some (buyPrice q)
        /\ buyTime q = time_at t
        /\ Portfolio.checkBuyCondition RSI_calculate BollingerBands_calculate
             (history_at t (symbol q)) = Returns true)
  /\ (forall ticks, runTimer (ticks ++ [t]) = runTimer [t]).
Proof.
  split; [|split; [apply afterTick_any|split]].
  - unfold Portfolio.timerScan, scanAndTrade. simpl.
    destruct (Portfolio.checkBuys _ _ _ _ _ _ _ _). reflexivity.
  - unfold Portfolio.afterTick, Portfolio.timerScan.
    destruct (scan_kept_then_bought RSI_calculate BollingerBands_calculate
                (history_at t) (quote_at t) sp500 (time_at t) (trending_at t) [] ∅)
      as (bought & -> & Hall).
    simpl. exact Hall.
  - intros ticks. unfold Portfolio.runTimer. rewrite fold_left_app. simpl.
    apply afterTick_any.
Qed.

End TimerFacts.

(** *** Runs on concrete series *)

#[local] Abbreviation model_signal :=
  (checkBuyCondition Indicators.rsi_calculate Indicators.bollinger_series).
#[local] Abbreviation model_crossing := (crossing Indicators.rsi_calculate).

Example quiet_then_drop_fires : model_signal quiet_then_drop = Returns true.
Proof. vm_compute. reflexivity. Qed.

(** The share count is a rounded quotient: at a quote of 20.04 the
    shares times the quote fall short of the 2000 recorded as
    [buyValue]. *)
Example shares_times_quote_rounded :
  let quote := Double.literal (2004 # 100) in
  Double.mul (Double.div BUY_AMOUNT quote) quote
  = 2000 - (1 # 4398046511104).
Proof. vm_compute. reflexivity. Qed.

Lemma entry_signal_edge_trigger_witness :
  (50 <= length quiet_then_drop)%nat
  /\ exists r p c b,
       lastRsi Indicators.rsi_calculate quiet_then_drop = Some r
       /\ prevRsi Indicators.rsi_calculate quiet_then_drop = Some p
       /\ lastClose quiet_then_drop = Some c
       /\ lastBb Indicators.bollinger_series quiet_then_drop = Some b
       /\ r < 30 /\ 30 <= p /\ c < Indicators.lower b.
Proof.
  assert (Hlen : (50 <= length quiet_then_drop)%nat) by (vm_compute; lia).
  split; [exact Hlen|].
  destruct (entry_signal_edge_trigger Indicators.rsi_calculate
              Indicators.bollinger_series quiet_then_drop Hlen) as [Hiff _].
  apply Hiff. vm_compute. reflexivity.
Defined.

(** C1, counterexample. One bar arrives per cycle.  Over
    [jump_then_slide] the RSI falls through 30 on the fiftieth cycle and
    on no other, and the signal fires on no cycle at all, because the
    close stays above the lower band.  Over [drift_then_fall] the RSI
    falls below 30 once, whether it is read off each cycle's own array
    (cycle 51) or off one array computed over the whole series (the last
    bar), and the signal fires on cycle 51 and again on cycle 52: cycle
    52 computes its arrays from bars 3 to 52, and there the RSI before
    the last is above 30 although cycle 51 had reported an RSI below
    30. *)
Lemma single_crossing_not_one_shot :
  (map model_crossing (prefixes jump_then_slide) = repeat false 49 ++ [true]
   /\ map model_signal (prefixes jump_then_slide) = repeat (Returns false) 50)
  /\ (map (fun h => js_lt (lastRsi Indicators.rsi_calculate h) (Some 30))
        (prefixes drift_then_fall)
      = repeat false 50 ++ [true; true]
      /\ map (fun r => Qlt_bool r 30)
           (Indicators.rsi_calculate 14 (map close drift_then_fall))
         = repeat false 37 ++ [true]
      /\ map model_signal (prefixes drift_then_fall)
         = repeat (Returns false) 50 ++ [Returns true; Returns true]
      /\ js_lt (lastRsi Indicators.rsi_calculate (firstn 51 drift_then_fall))
           (Some 30) = true
      /\ js_ge (prevRsi Indicators.rsi_calculate drift_then_fall) (Some 30)
         = true).
Proof.
  split; [split; vm_compute; reflexivity|].
  split; [vm_compute; reflexivity|].
  split; [vm_compute; reflexivity|].
  split; [vm_compute; reflexivity|].
  split; vm_compute; reflexivity.
Qed.

Lemma short_history_skipped_witness :
  (length (thin_history "NEWCO") < 50)%nat
  /\ model_signal (thin_history "NEWCO") = Returns false.
Proof.
  assert (H : (length (thin_history "NEWCO") < 50)%nat) by (vm_compute; lia).
  split; [exact H|].
  apply (short_history_skipped Indicators.rsi_calculate
           Indicators.bollinger_series thin_history (fun _ => Some 90)
           {[ "NEWCO"%string ]} 0%Z "NEWCO" H).
Defined.

Lemma only_last_fifty_closes_witness :
  model_signal (firstn 5 quiet_then_drop ++ quiet_then_drop)
  = model_signal quiet_then_drop.
Proof.
  assert (Hlen : (50 <= length quiet_then_drop)%nat) by (vm_compute; lia).
  apply (only_last_fifty_closes Indicators.rsi_calculate
           Indicators.bollinger_series (firstn 5 quiet_then_drop)
           quiet_then_drop [] Hlen).
Defined.

(** A scan that holds AAPL and sees AAPL and MSFT trending, both in the
    index, both with the buy condition true and quoted 90. *)
Lemma scan_symbols_distinct_witness :
  match portfolioState
          (scanAndTrade Indicators.rsi_calculate Indicators.bollinger_series
             (fun _ => quiet_then_drop) (fun _ => Some 90)
             [ "AAPL"%string; "MSFT"%string ]
             {[ "AAPL"%string; "MSFT"%string ]} 0%Z [twenty_at_100] (quoted 95))
  with
  | Some st => NoDup (map symbol st)
  | None => False
  end.
Proof.
  assert (Hheld : NoDup (map symbol [twenty_at_100])).
  { apply (bool_decide_unpack (NoDup (map symbol [twenty_at_100]))).
    vm_compute. exact I. }
  assert (Hfeed : NoDup [ "AAPL"%string; "MSFT"%string ]).
  { apply (bool_decide_unpack (NoDup [ "AAPL"%string; "MSFT"%string ])).
    vm_compute. exact I. }
  destruct (portfolioState _) as [st|] eqn:E.
  - exact (scan_symbols_distinct Indicators.rsi_calculate
             Indicators.bollinger_series (fun _ => quiet_then_drop)
             (fun _ => Some 90) {[ "AAPL"%string; "MSFT"%string ]} 0%Z
             [ "AAPL"%string; "MSFT"%string ] [twenty_at_100] (quoted 95)
             st Hheld Hfeed E).
  - vm_compute in E. discriminate E.
Defined.

Example scan_holding_aapl :
  option_map (map symbol)
    (portfolioState
       (scanAndTrade Indicators.rsi_calculate Indicators.bollinger_series
          (fun _ => quiet_then_drop) (fun _ => Some 90)
          [ "AAPL"%string; "MSFT"%string ]
          {[ "AAPL"%string; "MSFT"%string ]} 0%Z [twenty_at_100] (quoted 95)))
  = Some [ "AAPL"%string; "MSFT"%string ].
Proof. vm_compute. reflexivity. Qed.

Example price_table_skips_zero :
  updateCurrentPrices
    (fun s => if String.eqb s "AAPL" then Some 90 else Some 0)
    [ twenty_at_100;
      {| symbol := "MSFT"; buyPrice := 50; shares := 40;
         buyValue := BUY_AMOUNT; buyTime := 0 |} ]
  = Some (quoted 90).
Proof. vm_compute. reflexivity. Qed.

(** C4. The loss cut as the program runs it.  The first firing buys
    twenty shares of AAPL at 100.  At the second firing AAPL is quoted
    95: the position is worth 1900, above the bound of 1800, and the test
    of the sell loop on it is false; yet the portfolio after that firing
    is empty, because the scan starts from the empty portfolio of its
    closure and [setPortfolio] overwrites the state.  The position leaves
    the portfolio without ever reaching the bound, and no later firing
    can test it.  In the sell loop itself the bound is inclusive in
    doubles only: a position bought at 70 and quoted 63 is removed, one
    bought at 120 and quoted 108, worth exactly 1800 as well, is kept. *)
Theorem loss_cut_never_reached :
  let run := runTimer Indicators.rsi_calculate Indicators.bollinger_series
               {[ "AAPL"%string ]} in
  let held := {| symbol := "AAPL"; buyPrice := 100; shares := 20;
                 buyValue := 2000; buyTime := 1 |} in
  run [aapl_signal_at_100] = [held]
  /\ 95 * shares held == 1900
  /\ lossCut 95 held = false
  /\ run [aapl_signal_at_100; aapl_quiet_at_95] = []
  /\ (63 * (2000 / 70) == 1800
      /\ checkSells (quoted 63) 1 [bought_at 70] = Returns [])
  /\ (108 * (2000 / 120) == 1800
      /\ checkSells (quoted 108) 1 [bought_at 120] = Returns [bought_at 120]).
Proof.
  cbv zeta.
  split; [vm_compute; reflexivity|].
  split; [reflexivity|].
  split; [vm_compute; reflexivity|].
  split; [vm_compute; reflexivity|].
  split; (split; [reflexivity|vm_compute; reflexivity]).
Qed.

(** C5, the failing run. The trending list names AAPL twice, AAPL is in
    the index, nothing is held and the buy condition holds: the scan
    completes and leaves two positions on AAPL, because the guard of the
    buy loop looks at the portfolio bound before the scan. *)
Theorem duplicate_in_feed_bought_twice :
  let r := scanAndTrade Indicators.rsi_calculate Indicators.bollinger_series
             (fun _ => quiet_then_drop) (fun _ => Some 90)
             [ "AAPL"%string; "AAPL"%string ] {[ "AAPL"%string ]} 0%Z [] ∅ in
  option_map (map symbol) (portfolioState r)
  = Some [ "AAPL"%string; "AAPL"%string ]
  /\ completed r = true.
Proof. vm_compute. split; reflexivity. Qed.


End PortfolioFacts.

(** ** The option scanner *)

Module ZeroDTEFacts.
Import ZeroDTE.

(** *** Risk/reward scoring *)

Lemma py_div_some (a b : Q) :
  ~ b == 0 -> py_div a b = Some (Double.div a b).
Proof.
  intros H. unfold py_div. destruct (Qeq_bool b 0) eqn:E; [|reflexivity].
  apply Qeq_bool_iff in E. contradiction.
Qed.

Lemma guarded_ratio_nonneg (reward max_loss : Q) :
  0 <= reward ->
  exists rr, guarded_ratio reward max_loss = Some rr /\ 0 <= rr
             /\ (max_loss <= 0 -> rr = 0).
Proof.
  intros Hr. unfold guarded_ratio, Qlt_bool.
  destruct (Qle_bool max_loss 0) eqn:E; simpl.
  - exists 0. split; [reflexivity|]. split; [lra|reflexivity].
  - assert (Hpos : 0 < max_loss).
    { apply Qnot_le_lt. intros H. apply Qle_bool_iff in H. congruence. }
    rewrite py_div_some by lra. exists (Double.div reward max_loss).
    split; [reflexivity|]. split; [|lra].
    apply DoubleFacts.round_nonneg.
    apply Qle_shift_div_l; [exact Hpos|lra].
Qed.

(** The estimate of the underlying price has the sign of the implied
    volatility, so its product with the volatility is not negative. *)
Lemma volatility_times_estimate (premium iv : Q) :
  0 <= premium -> ~ iv == 0 ->
  0 <= iv * Double.div (Double.mul premium 100) iv.
Proof.
  intros Hp Hiv.
  assert (HM : 0 <= Double.mul premium 100)
    by (apply DoubleFacts.round_nonneg; lra).
  set (M := Double.mul premium 100) in *.
  destruct (Qlt_le_dec 0 iv) as [Hpos|Hneg].
  - apply Qmult_le_0_compat; [lra|].
    apply DoubleFacts.round_nonneg. apply Qle_shift_div_l; [exact Hpos|lra].
  - assert (Hlt : 0 < - iv) by lra.
    assert (Hup : Double.div M iv <= 0).
    { apply DoubleFacts.round_nonpos.
      assert (E : M / iv == - (M / - iv)) by (field; lra).
      assert (0 <= M / - iv) by (apply Qle_shift_div_l; [exact Hlt|lra]).
      lra. }
    set (up := Double.div M iv) in *.
    assert (E : iv * up == (- iv) * (- up)) by ring.
    rewrite E. apply Qmult_le_0_compat; lra.
Qed.

(** With a non-zero implied volatility the score of a row is defined and
    not negative, and it is 0 when the premium is not positive. *)
Lemma risk_reward_nonneg (r : row) :
  ~ impliedVolatility r == 0 ->
  exists rr, risk_reward r = Some rr /\ 0 <= rr
             /\ (lastPrice r <= 0 -> rr = 0).
Proof.
  intros Hiv. unfold risk_reward. rewrite py_div_some by exact Hiv.
  destruct (kind r).
  - destruct (Qlt_le_dec 0 (lastPrice r)) as [Hpos|Hneg].
    + apply guarded_ratio_nonneg.
      apply DoubleFacts.round_nonneg. apply Qmult_le_0_compat.
      * apply DoubleFacts.round_nonneg.
        apply volatility_times_estimate; [lra|exact Hiv].
      * apply DoubleFacts.round_nonneg. lra.
    + unfold guarded_ratio, Qlt_bool.
      apply Qle_bool_iff in Hneg. rewrite Hneg. simpl.
      exists 0. split; [reflexivity|]. split; [lra|reflexivity].
  - apply guarded_ratio_nonneg.
    unfold Qlt_bool. destruct (Qle_bool (strike r) (lastPrice r)) eqn:E; simpl; [lra|].
    assert (~ strike r <= lastPrice r) by (rewrite <- Qle_bool_iff; congruence).
    apply DoubleFacts.round_nonneg. lra.
Qed.

(** C9, the failing row. The first statement of the loop body divides by
    the implied volatility before either guard on the premium is reached:
    on a row whose implied volatility is zero the body raises, no score
    is produced, and the whole scoring of the frame is lost with it. *)
Theorem zero_volatility_row_unscored :
  risk_reward call_without_volatility = None
  /\ risk_reward cheap_put = Some 99
  /\ calculate_risk_reward [cheap_put; call_without_volatility] = None.
Proof. vm_compute. repeat split; reflexivity. Qed.

(** *** Stop-loss and take-profit monitoring *)

Section Monitoring.

Variable get_quote : string -> option Q.

#[local] Abbreviation decision := (ZeroDTE.decision get_quote).
#[local] Abbreviation stays := (ZeroDTE.stays get_quote).
#[local] Abbreviation close_order := (ZeroDTE.close_order get_quote).

Lemma monitor_step_decision (p : position)
    (st : list position * list (position * reason)) :
  monitor_step get_quote p st
  = match decision p with
    | Some why => (remove p (fst st), snd st ++ [(p, why)])
    | None => st
    end.
Proof.
  unfold monitor_step, decision. now destruct (get_quote (symbol p)).
Qed.

Lemma Qle_bool_compat (a b c d : Q) :
  a == c -> b == d -> Qle_bool a b = Qle_bool c d.
Proof.
  intros H1 H2. destruct (Qle_bool c d) eqn:E.
  - apply Qle_bool_iff. apply Qle_bool_iff in E. now rewrite H1, H2.
  - destruct (Qle_bool a b) eqn:E'; [|reflexivity].
    apply Qle_bool_iff in E'. rewrite H1, H2 in E'.
    apply Qle_bool_iff in E'. congruence.
Qed.

(** Equal dictionaries get the same decision. *)
Lemma position_eqb_decision (p q : position) :
  position_eqb p q = true -> decision p = decision q.
Proof.
  unfold position_eqb. intros H.
  repeat (apply andb_prop in H as [H ?]).
  apply String.eqb_eq in H.
  repeat match goal with
         | E : Qeq_bool _ _ = true |- _ => apply Qeq_bool_iff in E
         end.
  unfold decision. rewrite H. destruct (get_quote (symbol q)) as [price|]; [|reflexivity].
  unfold exit_test.
  rewrite (Qle_bool_compat price (stop_loss p) price (stop_loss q))
    by (try reflexivity; assumption).
  rewrite (Qle_bool_compat (take_profit p) price (take_profit q) price)
    by (try reflexivity; assumption).
  reflexivity.
Qed.

Lemma position_eqb_refl (p : position) : position_eqb p p = true.
Proof.
  unfold position_eqb. rewrite String.eqb_refl, Z.eqb_refl.
  rewrite !(proj2 (Qeq_bool_iff _ _) (Qeq_refl _)). simpl.
  destruct (order_id p); [apply Z.eqb_refl|reflexivity].
Qed.

(** Removing a position that leaves: the first equal entry is the
    position itself when everything before it stays. *)
Lemma remove_first_leaving (p : position) (pre rest : list position) :
  stays p = false ->
  remove p (List.filter stays pre ++ p :: rest) = List.filter stays pre ++ rest.
Proof.
  intros Hp. induction pre as [|y pre IH]; simpl.
  - now rewrite position_eqb_refl.
  - destruct (stays y) eqn:Hy; [|exact IH]. simpl.
    destruct (position_eqb y p) eqn:E; [|now rewrite IH].
    apply position_eqb_decision in E. unfold stays in Hy, Hp.
    rewrite E in Hy. rewrite Hy in Hp. discriminate.
Qed.

Lemma monitor_loop_filter (rest : list position) :
  forall (pre : list position) (log : list (position * reason)),
  fold_left (fun st p => monitor_step get_quote p st) rest
    (List.filter stays pre ++ rest, log)
  = (List.filter stays (pre ++ rest), log ++ flat_map close_order rest).
Proof.
  induction rest as [|p rest IH]; intros pre log; simpl.
  - now rewrite !app_nil_r.
  - rewrite monitor_step_decision. simpl.
    replace (pre ++ p :: rest) with ((pre ++ [p]) ++ rest)
      by (rewrite <- app_assoc; reflexivity).
    unfold close_order at 1.
    destruct (decision p) as [why|] eqn:Hd.
    + rewrite remove_first_leaving by (unfold stays; now rewrite Hd).
      replace (List.filter stays pre) with (List.filter stays (pre ++ [p])).
      * rewrite IH. f_equal. now rewrite <- app_assoc.
      * rewrite List.filter_app. simpl. unfold stays at 2. rewrite Hd.
        apply app_nil_r.
    + replace (List.filter stays pre ++ p :: rest)
        with (List.filter stays (pre ++ [p]) ++ rest).
      * rewrite IH. reflexivity.
      * rewrite List.filter_app. simpl. unfold stays at 2. rewrite Hd.
        rewrite <- app_assoc. reflexivity.
Qed.

(** [monitor_positions] keeps, in order, the positions for which nothing
    is decided, and sends one close order per other position. *)
Lemma monitor_positions_filter (positions : list position) :
  monitor_positions get_quote positions
  = (List.filter stays positions, flat_map close_order positions).
Proof.
  unfold monitor_positions.
  apply (monitor_loop_filter positions [] []).
Qed.

Lemma closed_iff (positions : list position) (p : position) (why : reason) :
  In (p, why) (snd (monitor_positions get_quote positions))
  <-> In p positions /\ decision p = Some why.
Proof.
  rewrite monitor_positions_filter. simpl. rewrite in_flat_map. split.
  - intros (q & Hq & Hin). unfold close_order in Hin.
    destruct (decision q) as [w|] eqn:E; [|destruct Hin].
    destruct Hin as [[= <- <-]|[]]. auto.
  - intros [Hin Hd]. exists p. split; [exact Hin|].
    unfold close_order. rewrite Hd. now left.
Qed.

Lemma open_iff (positions : list position) (p : position) :
  In p (fst (monitor_positions get_quote positions))
  <-> In p positions /\ decision p = None.
Proof.
  rewrite monitor_positions_filter. simpl. rewrite filter_In. unfold stays.
  destruct (decision p); split; intros [H1 H2]; split; auto; discriminate.
Qed.

End Monitoring.






Example monitor_run :
  monitor_positions spy_quoted_low [spy_call; qqq_put]
  = ([qqq_put], [(spy_call, stop_loss_hit)]).
Proof. reflexivity. Qed.

(** *** The filter on scores *)

Lemma score_rows_total (rows : list row) :
  Forall (fun r => ~ impliedVolatility r == 0) rows ->
  exists scored,
    score_rows rows = Some scored
    /\ map fst scored = rows
    /\ forall x, In x scored -> risk_reward (fst x) = Some (snd x).
Proof.
  induction 1 as [|r rows Hr _ (scored & Hs & Hmap & Hall)]; simpl.
  - exists []. split; [reflexivity|]. split; [reflexivity|intros x []].
  - destruct (risk_reward_nonneg r Hr) as (rr & Hrr & _).
    rewrite Hrr, Hs. exists ((r, rr) :: scored).
    split; [reflexivity|]. split; [simpl; now rewrite Hmap|].
    intros x [<-|Hin]; [exact Hrr|now apply Hall].
Qed.

(** X14. On a frame in which no implied volatility is zero,
    [calculate_risk_reward] returns, keeps the rows in their order, and
    keeps a row exactly when its score is at least the minimum ratio;
    each kept row carries its own score. *)
Theorem scored_rows_filtered (rows : list row) :
  Forall (fun r => ~ impliedVolatility r == 0) rows ->
  exists kept,
    calculate_risk_reward rows = Some kept
    /\ sublist (map fst kept) rows
    /\ (forall x, In x kept ->
          risk_reward (fst x) = Some (snd x) /\ risk_reward_min <= snd x)
    /\ (forall r rr, In r rows -> risk_reward r = Some rr ->
          risk_reward_min <= rr -> In r (map fst kept)).
Proof.
  intros Hiv. destruct (score_rows_total rows Hiv) as (scored & Hs & Hmap & Hall).
  unfold calculate_risk_reward. rewrite Hs. eexists. split; [reflexivity|].
  split; [|split].
  - rewrite <- Hmap. clear. induction scored as [|x l IH]; simpl; [constructor|].
    destruct (Qle_bool risk_reward_min (snd x)); simpl;
      [now apply sublist_skip|now apply sublist_cons].
  - intros x Hx. apply filter_In in Hx as [Hin Hmin].
    split; [now apply Hall|now apply Qle_bool_iff].
  - intros r rr Hin Hrr Hmin. rewrite <- Hmap in Hin.
    apply in_map_iff in Hin as ([r' rr'] & Hfst & Hin'). simpl in Hfst. subst r'.
    apply in_map_iff. exists (r, rr'). split; [reflexivity|].
    apply filter_In. split; [exact Hin'|]. simpl.
    pose proof (Hall _ Hin') as Hown. simpl in Hown.
    rewrite Hrr in Hown. injection Hown as <-. now apply Qle_bool_iff.
Qed.

Lemma scored_rows_filtered_witness :
  exists kept,
    calculate_risk_reward [spy_call_row; near_put; far_put] = Some kept
    /\ sublist (map fst kept) [spy_call_row; near_put; far_put].
Proof.
  assert (Hiv : Forall (fun r => ~ impliedVolatility r == 0)
                  [spy_call_row; near_put; far_put]).
  { repeat constructor; intros H; discriminate H. }
  destruct (scored_rows_filtered _ Hiv) as (kept & Hk & Hsub & _).
  exists kept. split; [exact Hk|exact Hsub].
Defined.

Example scoring_run :
  option_map (map fst) (calculate_risk_reward [spy_call_row; near_put; far_put])
  = Some [spy_call_row; far_put].
Proof. vm_compute. reflexivity. Qed.

(** Scores are doubles.  The call at a premium of 2 with a volatility of
    0.3 scores a little over 10; the put at 0.7 with a strike of 2.8
    scores a little under 3 and is dropped by the filter, although its
    strike is four times its premium. *)
Example scores_are_rounded :
  risk_reward spy_call_row = Some (10 + (1 # 562949953421312))
  /\ risk_reward put_at_four_times = Some (3 - (1 # 2251799813685248))
  /\ calculate_risk_reward [put_at_four_times] = Some [].
Proof.
  split; [vm_compute; reflexivity|]. split; vm_compute; reflexivity.
Qed.

(** *** Opening a position *)

Lemma py_int_nonneg (x : Q) :
  0 <= x -> inject_Z (py_int x) <= x /\ x < inject_Z (py_int x + 1).
Proof.
  destruct x as [n d]. unfold py_int, Qle, Qlt. simpl. intros Hn.
  assert (Hn0 : (0 <= n)%Z) by lia.
  rewrite Z.quot_div_nonneg by lia.
  pose proof (Z.mul_div_le n (Zpos d) ltac:(lia)).
  pose proof (Z.mul_succ_div_gt n (Zpos d) ltac:(lia)).
  split; nia.
Qed.

Lemma py_int_below_one (x : Q) : x < 1 -> (py_int x < 1)%Z.
Proof.
  destruct x as [n d]. unfold py_int, Qlt. simpl. intros Hn.
  destruct (Z_lt_le_dec n 0) as [Hneg|Hpos].
  - pose proof (Z.quot_opp_l n (Zpos d) ltac:(lia)) as Hq.
    assert (0 <= (- n) ÷ Zpos d)%Z by (apply Z.quot_pos; lia).
    lia.
  - rewrite Z.quot_div_nonneg by lia. rewrite Z.div_small by lia. lia.
Qed.

Lemma py_int_positive (x : Q) : (1 <= py_int x)%Z -> 1 <= x.
Proof.
  intros H. apply Qnot_lt_le. intros Hlt.
  apply py_int_below_one in Hlt. lia.
Qed.

(** The constants of the configuration, as doubles. *)
Lemma max_position_size_bounds :
  (5 # 100) * (1 - Double.unit_roundoff) <= max_position_size
  /\ max_position_size <= (5 # 100) * (1 + Double.unit_roundoff).
Proof. apply DoubleFacts.round_bounds. reflexivity. Qed.

Lemma limit_factor_value :
  Double.add 1 limit_price_buffer = 4728779608739021 # 4503599627370496.
Proof. vm_compute. reflexivity. Qed.

Lemma stop_factor_value : Double.sub 1 max_loss_percent = 1 # 2.
Proof. vm_compute. reflexivity. Qed.

Lemma target_factor_value : Double.add 1 take_profit_percent = 5 # 2.
Proof. vm_compute. reflexivity. Qed.

(** 5% of a positive account value, as computed. *)
Lemma budget_bounds (account_value : Q) :
  0 < account_value ->
  account_value * (5 # 100) * (1 - Double.unit_roundoff) * (1 - Double.unit_roundoff)
    <= Double.mul account_value max_position_size
  /\ Double.mul account_value max_position_size
     <= account_value * (5 # 100) * (1 + Double.unit_roundoff)
        * (1 + Double.unit_roundoff).
Proof.
  intros Hav. destruct max_position_size_bounds as [Hlo Hhi].
  set (c := max_position_size) in *.
  assert (Hc : 0 < c) by (unfold Double.unit_roundoff in Hlo; lra).
  assert (Hx : 0 < account_value * c) by (apply Qmult_lt_0_compat; assumption).
  destruct (DoubleFacts.round_bounds _ Hx) as [Rlo Rhi].
  fold (Double.mul account_value c) in Rlo, Rhi.
  apply (Qmult_le_l _ _ account_value Hav) in Hlo.
  apply (Qmult_le_l _ _ account_value Hav) in Hhi.
  set (x := account_value * c) in *.
  unfold Double.unit_roundoff in *. split; lra.
Qed.

(** The cost of one contract at a positive premium, as computed. *)
Lemma cost_bounds (premium : Q) :
  0 < premium ->
  premium * 100 * (1 - Double.unit_roundoff) <= Double.mul premium 100
  /\ Double.mul premium 100 <= premium * 100 * (1 + Double.unit_roundoff).
Proof. intros H. apply DoubleFacts.round_bounds. lra. Qed.

(** A quotient of doubles whose numerator is below the denominator by
    more than one rounding is below 1 as computed. *)
Lemma quotient_below_one (n d : Q) :
  0 < d -> n * (1 + Double.unit_roundoff) < d -> Double.div n d < 1.
Proof.
  intros Hd Hn. unfold Double.unit_roundoff in Hn.
  destruct (Qlt_le_dec 0 n) as [Hpos|Hneg].
  - assert (Hq : 0 < n / d) by (apply Qlt_shift_div_l; lra).
    destruct (DoubleFacts.round_bounds _ Hq) as [_ Hhi].
    fold (Double.div n d) in Hhi.
    assert (Hb : n / d < 9007199254740992 # 9007199254740993).
    { apply Qlt_shift_div_r; [exact Hd|]. lra. }
    set (x := n / d) in *. unfold Double.unit_roundoff in Hhi. lra.
  - assert (Double.div n d <= 0).
    { apply DoubleFacts.round_nonpos. apply Qle_shift_div_r; [exact Hd|]. lra. }
    lra.
Qed.

Section Trading.

Variable get_account_value : option Q.
Variable format_symbol : row -> string.
Variable place_order : string -> Z -> Q -> option (option Z).

#[local] Abbreviation execute_trade :=
  (ZeroDTE.execute_trade get_account_value format_symbol place_order).

(** X15. When [execute_trade] returns [True], exactly one position was
    appended and the order behind it was placed, for at least one
    contract; the stop is the double of half the entry and the target
    that of two and a half times the entry.  For a positive premium, and
    up to the rounding of the arithmetic (a relative margin of 2^-50),
    the contracts at the premium cost no more than 5% of the account
    value and one more contract would cost more; the stop lies below the
    entry and the entry below the target. *)
Theorem execute_trade_opens (positions positions' : list position)
    (option_data : row) :
  execute_trade positions option_data = (positions', true) ->
  exists account_value p,
    get_account_value = Some account_value
    /\ positions' = positions ++ [p]
    /\ symbol p = format_symbol option_data
    /\ (1 <= contracts p)%Z
    /\ place_order (symbol p) (contracts p) (entry_price p) = Some (order_id p)
    /\ stop_loss p = Double.mul (entry_price p) (1 # 2)
    /\ take_profit p = Double.mul (entry_price p) (5 # 2)
    /\ (0 < lastPrice option_data ->
        inject_Z (contracts p) * (lastPrice option_data * 100)
          <= account_value * (5 # 100) * (1 + Double.rounding_margin)
        /\ account_value * (5 # 100) * (1 - Double.rounding_margin)
           < inject_Z (contracts p + 1) * (lastPrice option_data * 100)
        /\ stop_loss p < entry_price p
        /\ entry_price p < take_profit p).
Proof.
  unfold ZeroDTE.execute_trade.
  destruct get_account_value as [av|]; [|intros [= _ H]; discriminate H].
  destruct (py_div _ _) as [ratio|] eqn:Hdiv; [|intros [= _ H]; discriminate H].
  destruct (py_int ratio <? 1)%Z eqn:Hone; [intros [= _ H]; discriminate H|].
  apply Z.ltb_ge in Hone.
  destruct (place_order _ _ _) as [oid|] eqn:Hplace; [|intros [= _ H]; discriminate H].
  intros [= <-]. eexists av, _. split; [reflexivity|]. split; [reflexivity|].
  cbn [symbol contracts entry_price stop_loss take_profit order_id].
  split; [reflexivity|]. split; [exact Hone|]. split; [exact Hplace|].
  rewrite stop_factor_value, target_factor_value, limit_factor_value.
  split; [reflexivity|]. split; [reflexivity|].
  intros Hpos.
  set (k := py_int ratio) in *.
  destruct (cost_bounds _ Hpos) as [Dlo Dhi].
  set (D := Double.mul (lastPrice option_data) 100) in *.
  set (P := lastPrice option_data * 100) in *.
  assert (HP : 0 < P) by (unfold P; lra).
  assert (HD : 0 < D) by (unfold Double.unit_roundoff in Dlo; lra).
  unfold py_div in Hdiv.
  destruct (Qeq_bool D 0); [discriminate|]. injection Hdiv as Hratio.
  set (N := Double.mul av max_position_size) in *.
  assert (Hr1 : 1 <= ratio) by (apply py_int_positive; exact Hone).
  assert (HN : 0 < N).
  { destruct (Qlt_le_dec 0 N) as [H|H]; [exact H|].
    assert (Hle : Double.div N D <= 0).
    { apply DoubleFacts.round_nonpos. apply Qle_shift_div_r; [exact HD|]. lra. }
    rewrite Hratio in Hle. lra. }
  assert (Hav : 0 < av).
  { destruct (Qlt_le_dec 0 av) as [H|H]; [exact H|].
    assert (N <= 0).
    { apply DoubleFacts.round_nonpos.
      destruct max_position_size_bounds as [Hc _].
      unfold Double.unit_roundoff in Hc.
      assert (E : av * max_position_size == - ((- av) * max_position_size)) by ring.
      assert (0 <= (- av) * max_position_size)
        by (apply Qmult_le_0_compat; lra).
      lra. }
    lra. }
  destruct (budget_bounds av Hav) as [Nlo Nhi]. fold N in Nlo, Nhi.
  assert (Hq : 0 < N / D) by (apply Qlt_shift_div_l; lra).
  destruct (DoubleFacts.round_bounds _ Hq) as [Rlo Rhi].
  fold (Double.div N D) in Rlo, Rhi. rewrite Hratio in Rlo, Rhi.
  assert (Hk : 0 <= ratio) by lra.
  destruct (py_int_nonneg ratio Hk) as [Klo Khi]. fold k in Klo, Khi.
  assert (HND : N / D * D == N) by (field; lra).
  set (x := N / D) in *.
  (* the ratio and the two integers, scaled by the computed cost *)
  assert (Hup : inject_Z k * D <= x * D * (1 + Double.unit_roundoff)).
  { assert (inject_Z k <= x * (1 + Double.unit_roundoff)) by lra.
    apply (Qmult_le_compat_r _ _ D) in H; [|lra].
    assert (E : x * (1 + Double.unit_roundoff) * D
                == x * D * (1 + Double.unit_roundoff)) by ring.
    lra. }
  assert (Hdn : x * D * (1 - Double.unit_roundoff) < inject_Z (k + 1) * D).
  { assert (x * (1 - Double.unit_roundoff) < inject_Z (k + 1)) by lra.
    apply (Qmult_lt_compat_r _ _ D HD) in H.
    assert (E : x * (1 - Double.unit_roundoff) * D
                == x * D * (1 - Double.unit_roundoff)) by ring.
    lra. }
  rewrite HND in Hup, Hdn.
  assert (Hk0 : 0 <= inject_Z k).
  { change 0 with (inject_Z 0). rewrite <- Zle_Qle. lia. }
  assert (Hk1 : 0 <= inject_Z (k + 1)).
  { change 0 with (inject_Z 0). rewrite <- Zle_Qle. lia. }
  assert (HkD : inject_Z k * (P * (1 - Double.unit_roundoff)) <= inject_Z k * D).
  { destruct (Qle_lt_or_eq _ _ Hk0) as [Hlt|Heq].
    - apply (Qmult_le_l _ _ _ Hlt). exact Dlo.
    - rewrite <- Heq. lra. }
  assert (HkD' : inject_Z (k + 1) * D
                 <= inject_Z (k + 1) * (P * (1 + Double.unit_roundoff))).
  { destruct (Qle_lt_or_eq _ _ Hk1) as [Hlt|Heq].
    - apply (Qmult_le_l _ _ _ Hlt). exact Dhi.
    - rewrite <- Heq. lra. }
  set (kP := inject_Z k * P).
  set (kP' := inject_Z (k + 1) * P).
  assert (E1 : inject_Z k * (P * (1 - Double.unit_roundoff))
               == kP * (1 - Double.unit_roundoff)) by (unfold kP; ring).
  assert (E2 : inject_Z (k + 1) * (P * (1 + Double.unit_roundoff))
               == kP' * (1 + Double.unit_roundoff)) by (unfold kP'; ring).
  rewrite E1 in HkD. rewrite E2 in HkD'.
  set (kD := inject_Z k * D) in *. set (kD' := inject_Z (k + 1) * D) in *.
  set (A := av * (5 # 100)) in *.
  assert (HA : 0 < A) by (unfold A; lra).
  (* the entry and its two levels *)
  set (factor := 4728779608739021 # 4503599627370496).
  assert (He : 0 < lastPrice option_data * factor)
    by (apply Qmult_lt_0_compat; [exact Hpos|reflexivity]).
  destruct (DoubleFacts.round_bounds _ He) as [Elo _].
  fold (Double.mul (lastPrice option_data) factor) in Elo.
  set (entry := Double.mul (lastPrice option_data) factor) in *.
  assert (Hentry : 0 < entry).
  { set (y := lastPrice option_data * factor) in *.
    unfold Double.unit_roundoff in Elo. lra. }
  assert (Hs : 0 < entry * (1 # 2)) by lra.
  assert (Ht : 0 < entry * (5 # 2)) by lra.
  destruct (DoubleFacts.round_bounds _ Hs) as [_ Shi].
  destruct (DoubleFacts.round_bounds _ Ht) as [Tlo _].
  fold (Double.mul entry (1 # 2)) in Shi. fold (Double.mul entry (5 # 2)) in Tlo.
  unfold Double.unit_roundoff, Double.rounding_margin in *.
  split; [lra|]. split; [lra|]. split; lra.
Qed.

(** X16. When [execute_trade] returns [False] the list of positions is
    what it was: nothing is recorded for an order that was not placed.
    It returns [False] when the account value cannot be read, when the
    premium is zero (the division raises), when 5% of the account, with
    the rounding margin of 2^-50 added, does not pay for one contract at
    a positive premium, and when placing the order raises. *)
Theorem execute_trade_refuses (positions : list position) (option_data : row) :
  (forall positions',
     execute_trade positions option_data = (positions', false) ->
     positions' = positions)
  /\ (get_account_value = None ->
      execute_trade positions option_data = (positions, false))
  /\ (lastPrice option_data == 0 ->
      execute_trade positions option_data = (positions, false))
  /\ (forall account_value,
        get_account_value = Some account_value ->
        0 < lastPrice option_data ->
        account_value * (5 # 100) * (1 + Double.rounding_margin)
          < lastPrice option_data * 100 ->
        execute_trade positions option_data = (positions, false))
  /\ ((forall s n limit, place_order s n limit = None) ->
      execute_trade positions option_data = (positions, false)).
Proof.
  unfold ZeroDTE.execute_trade. split; [|split; [|split; [|split]]].
  - intros positions'.
    destruct get_account_value as [av|]; [|now intros [= <-]].
    destruct (py_div _ _) as [ratio|]; [|now intros [= <-]].
    destruct (py_int ratio <? 1)%Z; [now intros [= <-]|].
    destruct (place_order _ _ _); [intros [= _ H]; discriminate H|now intros [= <-]].
  - intros ->. reflexivity.
  - intros Hzero. destruct get_account_value as [av|]; [|reflexivity].
    unfold py_div.
    assert (E : lastPrice option_data * 100 == 0) by (rewrite Hzero; ring).
    unfold Double.mul. rewrite (DoubleFacts.round_zero _ E). reflexivity.
  - intros av -> Hpos Hfunds.
    destruct (cost_bounds _ Hpos) as [Dlo _].
    set (D := Double.mul (lastPrice option_data) 100) in *.
    assert (HD : 0 < D) by (unfold Double.unit_roundoff in Dlo; lra).
    rewrite py_div_some by lra.
    set (N := Double.mul av max_position_size).
    assert (Hx : Double.div N D < 1).
    { apply quotient_below_one; [exact HD|].
      destruct (Qlt_le_dec 0 av) as [Hav|Hav].
      - destruct (budget_bounds av Hav) as [_ Nhi]. fold N in Nhi.
        set (A := av * (5 # 100)) in *.
        assert (HA : 0 < A) by (unfold A; lra).
        set (P := lastPrice option_data * 100) in *.
        unfold Double.unit_roundoff, Double.rounding_margin in *. lra.
      - assert (N <= 0).
        { apply DoubleFacts.round_nonpos.
          destruct max_position_size_bounds as [Hc _].
          unfold Double.unit_roundoff in Hc.
          assert (E : av * max_position_size == - ((- av) * max_position_size))
            by ring.
          assert (0 <= (- av) * max_position_size)
            by (apply Qmult_le_0_compat; lra).
          lra. }
        unfold Double.unit_roundoff. lra. }
    apply py_int_below_one in Hx. apply Z.ltb_lt in Hx. rewrite Hx. reflexivity.
  - intros Hraise. destruct get_account_value as [av|]; [|reflexivity].
    destruct (py_div _ _) as [ratio|]; [|reflexivity].
    destruct (py_int ratio <? 1)%Z; [reflexivity|].
    rewrite Hraise. reflexivity.
Qed.

End Trading.

Lemma execute_trade_opens_witness :
  exists p,
    fst (execute_trade (Some 10000) spy_symbol broker_accepts [] spy_call_row)
    = [] ++ [p]
    /\ contracts p = 2%Z
    /\ stop_loss p < entry_price p /\ entry_price p < take_profit p.
Proof.
  assert (Hrun : execute_trade (Some 10000) spy_symbol broker_accepts []
                   spy_call_row
                 = (fst (execute_trade (Some 10000) spy_symbol broker_accepts []
                           spy_call_row), true)) by (vm_compute; reflexivity).
  destruct (execute_trade_opens (Some 10000) spy_symbol broker_accepts [] _
              spy_call_row Hrun)
    as (av & p & Hav & Hp & _ & Hone & _ & _ & _ & Hsized).
  injection Hav as <-.
  destruct (Hsized eq_refl) as (Hcap & Hmax & Hstop & Htarget).
  exists p. split; [exact Hp|]. split; [|split; [exact Hstop|exact Htarget]].
  unfold Qle, Qlt in Hcap, Hmax. simpl in Hcap, Hmax. lia.
Defined.

(** Just under the budget of one contract in exact terms, the rounded
    arithmetic buys: with an account value one place below 2000 and a
    premium of 1, 5% of the account is below 100 and the computed
    quotient is 1. *)
Example execute_trade_rounds_up :
  just_under_2000 * (5 # 100) < lastPrice premium_of_one * 100
  /\ snd (execute_trade (Some just_under_2000) spy_symbol broker_accepts []
            premium_of_one) = true.
Proof. split; [reflexivity|vm_compute; reflexivity]. Qed.

(** *** Close orders and the monitoring loop *)

Lemma monitor_orders_simulation (get_quote : string -> option Q)
    (close_position : position -> reason -> bool) (l : list position) :
  forall st,
    let out := fold_left
                 (fun st p => monitor_step_orders get_quote close_position p st)
                 l st in
    (fst out, map forget_result (snd out))
    = fold_left (fun st p => monitor_step get_quote p st) l
        (fst st, map forget_result (snd st)).
Proof.
  induction l as [|p l IH]; intros st; simpl; [reflexivity|].
  rewrite IH. f_equal. unfold monitor_step_orders, monitor_step.
  destruct (get_quote (symbol p)) as [price|]; [|reflexivity].
  destruct (exit_test price p) as [why|]; [|reflexivity].
  simpl. now rewrite map_app.
Qed.

(** X17. The positions that [monitor_positions] keeps do not depend on
    what became of the close orders: a position whose level is hit leaves
    the list whether its sell order went through or raised, and each
    order is sent once, with the reason decided by the price. *)
Theorem close_result_ignored (get_quote : string -> option Q)
    (close_position : position -> reason -> bool) (positions : list position) :
  fst (monitor_positions_orders get_quote close_position positions)
  = fst (monitor_positions get_quote positions)
  /\ map forget_result
       (snd (monitor_positions_orders get_quote close_position positions))
     = snd (monitor_positions get_quote positions)
  /\ forall p why sent,
       In (p, why, sent)
          (snd (monitor_positions_orders get_quote close_position positions)) ->
       decision get_quote p = Some why
       /\ ~ In p (fst (monitor_positions_orders get_quote close_position positions)).
Proof.
  pose proof (monitor_orders_simulation get_quote close_position positions
                (positions, [])) as Hsim.
  simpl in Hsim. fold (monitor_positions_orders get_quote close_position positions) in Hsim.
  fold (monitor_positions get_quote positions) in Hsim.
  assert (H1 : fst (monitor_positions_orders get_quote close_position positions)
               = fst (monitor_positions get_quote positions)).
  { now rewrite <- Hsim. }
  assert (H2 : map forget_result
                 (snd (monitor_positions_orders get_quote close_position positions))
               = snd (monitor_positions get_quote positions)).
  { now rewrite <- Hsim. }
  split; [exact H1|]. split; [exact H2|].
  intros p why sent Hin.
  assert (Hlog : In (p, why) (snd (monitor_positions get_quote positions))).
  { rewrite <- H2. apply in_map_iff. exists (p, why, sent). auto. }
  apply closed_iff in Hlog as [_ Hd]. split; [exact Hd|].
  rewrite H1, open_iff. intros [_ Hnone]. congruence.
Qed.

Lemma stays_length (get_quote : string -> option Q) (positions : list position) :
  length positions
  = (length (List.filter (stays get_quote) positions)
     + length (flat_map (close_order get_quote) positions))%nat.
Proof.
  induction positions as [|p l IH]; simpl; [reflexivity|].
  unfold stays at 1, close_order at 1.
  destruct (decision get_quote p); simpl; rewrite IH; lia.
Qed.

(** X18. After any number of passes of the monitoring loop, the
    positions still monitored are those of the start for which no pass
    decided anything, in their original order; every other position got
    exactly one close order, so orders and remaining positions add up to
    the positions of the start. *)
Theorem monitoring_loop_outcome (ticks : list (string -> option Q)) :
  forall positions : list position,
    (forall p, In p (fst (monitoring_loop ticks positions))
               <-> In p positions
                   /\ List.Forall (fun get_quote => decision get_quote p = None)
                        ticks)
    /\ sublist (fst (monitoring_loop ticks positions)) positions
    /\ length positions
       = (length (fst (monitoring_loop ticks positions))
          + length (snd (monitoring_loop ticks positions)))%nat.
Proof.
  induction ticks as [|get_quote rest IH]; intros positions; simpl.
  - split; [|split; [reflexivity|lia]].
    intros p. split; [intros H; split; [exact H|constructor]|tauto].
  - destruct positions as [|p0 ps]; simpl.
    + split; [|split; [constructor|reflexivity]]. intros p. tauto.
    + set (positions := p0 :: ps).
      rewrite (monitor_positions_filter get_quote positions).
      destruct (IH (List.filter (stays get_quote) positions)) as (Hin & Hsub & Hlen).
      destruct (monitoring_loop rest _) as [final sent']. cbn [fst snd] in *.
      split; [|split].
      * intros p. rewrite Hin, filter_In. unfold stays. split.
        -- intros [[Hp Hs] Hall]. split; [exact Hp|]. constructor; [|exact Hall].
           destruct (decision get_quote p); [discriminate|reflexivity].
        -- intros [Hp Hall]. inversion Hall as [|? ? Hd Hrest]; subst.
           split; [|exact Hrest]. split; [exact Hp|]. now rewrite Hd.
      * etransitivity; [exact Hsub|]. apply PortfolioFacts.filter_sublist.
      * pose proof (stays_length get_quote positions) as Hl.
        change (length positions) with (S (length ps)) in Hl.
        rewrite length_app. lia.
Qed.

(** X19. A second pass with the same quotes changes nothing and sends no
    order: every position that is still in the list has either no quote
    or a price strictly between its stop and its target. *)
Theorem second_pass_is_silent (get_quote : string -> option Q)
    (positions : list position) :
  monitor_positions get_quote (fst (monitor_positions get_quote positions))
  = (fst (monitor_positions get_quote positions), [])
  /\ forall p, In p (fst (monitor_positions get_quote positions)) ->
       get_quote (symbol p) = None
       \/ exists price, get_quote (symbol p) = Some price
                        /\ stop_loss p < price /\ price < take_profit p.
Proof.
  split.
  - rewrite !monitor_positions_filter. simpl.
    induction positions as [|p l IH]; simpl; [reflexivity|].
    destruct (stays get_quote p) eqn:Hs; simpl; [|exact IH].
    rewrite Hs. unfold close_order at 1. unfold stays in Hs.
    destruct (decision get_quote p); [discriminate|]. simpl.
    injection IH as IH1 IH2. now rewrite IH1, IH2.
  - intros p Hin. apply open_iff in Hin as [_ Hd]. unfold decision in Hd.
    destruct (get_quote (symbol p)) as [price|]; [right|now left].
    exists price. split; [reflexivity|]. unfold exit_test in Hd.
    destruct (Qle_bool price (stop_loss p)) eqn:E1; [discriminate|].
    destruct (Qle_bool (take_profit p) price) eqn:E2; [discriminate|].
    split; apply Qnot_le_lt; intros H; apply Qle_bool_iff in H; congruence.
Qed.

Example no_trade_on_small_account :
  execute_trade (Some 3000) spy_symbol broker_accepts [spy_call] spy_call_row
  = ([spy_call], false).
Proof. reflexivity. Qed.

Example monitoring_two_passes :
  monitoring_loop [spy_quoted_low; spy_quoted_low] [spy_call; qqq_put]
  = ([qqq_put], [(spy_call, stop_loss_hit)]).
Proof. reflexivity. Qed.

End ZeroDTEFacts.
